(** * In-memory cache with TTL expiry and LRU eviction

    A shallow embedding of [src/cache.ts]: the doubly linked recency list
    ([LRUNode], [LRUList]) over an explicit heap of nodes, the entry table
    (a JavaScript [Map], kept in insertion order) and the cache engine
    ([InMemoryCache]) with its budget enforcement and expiry sweep.

    Conventions of the embedding.
    - Object references to [LRUNode]s are addresses into a heap of nodes;
      [new LRUNode(k)] allocates the next address.  Nodes are never freed
      (garbage collection is not observable).
    - A method that mutates [this] is a function from the state before to
      the state after (together with the returned value, if any).
    - [Date.now()] is an argument [now : N] of every operation that reads
      the clock (milliseconds since the epoch, never negative).
    - Byte counts and [ttlMs] are integers ([Z]): the numbers of the
      program are taken to be integers below 2^53, where the arithmetic of
      doubles is exact.  A [ttlMs] that is [NaN] behaves as one that is not
      positive.
    - A [Buffer] is a list of bytes; a string is the sequence of bytes of
      its UTF-8 encoding, so that [Buffer.from(s)] keeps the bytes and
      [buf.length] is their number.
    - The sweeper's timer is not modelled: [sweepExpired] is an operation
      that the scheduler may run between any two foreground operations. *)

From Stdlib Require Import ZArith NArith Ascii Lia.
From Stdlib Require String Strings.Byte DecimalString.
From stdpp Require Import base option list strings sets.

Local Open Scope Z_scope.
#[local] Set Warnings "-clear-no-such-hyp".

(** ** JavaScript's [Map<string, V>]

    Entries are kept in insertion order; [set] on a present key replaces the
    value where it stands, [delete] removes the entry. *)
Module Map.
Section Map.
Context {V : Type}.

Fixpoint get (k : string) (m : list (string * V)) : option V :=
  match m with
  | [] => None
  | (k', v) :: m' => if decide (k' = k) then Some v else get k m'
  end.

Fixpoint set (k : string) (v : V) (m : list (string * V)) : list (string * V) :=
  match m with
  | [] => [(k, v)]
  | (k', v') :: m' =>
      if decide (k' = k) then (k, v) :: m' else (k', v') :: set k v m'
  end.

Fixpoint delete (k : string) (m : list (string * V)) : list (string * V) :=
  match m with
  | [] => []
  | (k', v') :: m' =>
      if decide (k' = k) then delete k m' else (k', v') :: delete k m'
  end.

Definition keys (m : list (string * V)) : list string := m.*1.

Definition size (m : list (string * V)) : nat := length m.
End Map.
End Map.

(** ** The recency list: [LRUNode] and [LRUList] *)

Abbreviation ptr := nat.

Record LRUNode := mkNode {
  fullKey : string;
  prev : option ptr;
  next : option ptr
}.

Abbreviation Heap := (list LRUNode).

Record LRUList := mkList {
  head : option ptr;
  tail : option ptr
}.

Module Heap.
(** A reference always points to a node; the default is never read on
    the heaps the program builds. *)
Definition deref (h : Heap) (p : ptr) : LRUNode :=
  default (mkNode "" None None) (h !! p).

Definition set_prev (v : option ptr) (n : LRUNode) : LRUNode :=
  mkNode (fullKey n) v (next n).
Definition set_next (v : option ptr) (n : LRUNode) : LRUNode :=
  mkNode (fullKey n) (prev n) v.

(** [p.prev = v] and [p.next = v] *)
Definition write_prev (p : ptr) (v : option ptr) (h : Heap) : Heap :=
  alter (set_prev v) p h.
Definition write_next (p : ptr) (v : option ptr) (h : Heap) : Heap :=
  alter (set_next v) p h.

(** [new LRUNode(fullKey)] *)
Definition alloc (k : string) (h : Heap) : ptr * Heap :=
  (length h, h ++ [mkNode k None None]).
End Heap.

Module LRUList.
Import Heap.

Definition empty : LRUList := mkList None None.

Definition detach (node : ptr) (h : Heap) (q : LRUList) : Heap * LRUList :=
  (* if (node.prev) node.prev.next = node.next *)
  let h := match prev (deref h node) with
           | Some a => write_next a (next (deref h node)) h
           | None => h
           end in
  (* if (node.next) node.next.prev = node.prev *)
  let h := match next (deref h node) with
           | Some b => write_prev b (prev (deref h node)) h
           | None => h
           end in
  (* if (this.head === node) this.head = node.next *)
  let q := if decide (head q = Some node)
           then mkList (next (deref h node)) (tail q) else q in
  (* if (this.tail === node) this.tail = node.prev *)
  let q := if decide (tail q = Some node)
           then mkList (head q) (prev (deref h node)) else q in
  (* node.prev = null; node.next = null *)
  let h := write_prev node None h in
  let h := write_next node None h in
  (h, q).

Definition link_front (node : ptr) (h : Heap) (q : LRUList) : Heap * LRUList :=
  (* node.next = this.head *)
  let h := write_next node (head q) h in
  (* if (this.head) this.head.prev = node *)
  let h := match head q with
           | Some hd => write_prev hd (Some node) h
           | None => h
           end in
  (* this.head = node *)
  let q := mkList (Some node) (tail q) in
  (* if (!this.tail) this.tail = node *)
  let q := match tail q with
           | None => mkList (head q) (Some node)
           | Some _ => q
           end in
  (h, q).

Definition moveToFront (node : ptr) (h : Heap) (q : LRUList) : Heap * LRUList :=
  (* if (this.head === node) return *)
  if decide (head q = Some node) then (h, q)
  else
    let '(h, q) := detach node h q in
    link_front node h q.

Definition pushFront (node : ptr) (h : Heap) (q : LRUList) : Heap * LRUList :=
  (* node.prev = null *)
  let h := write_prev node None h in
  link_front node h q.

Definition popBack (h : Heap) (q : LRUList) : option ptr * (Heap * LRUList) :=
  match tail q with
  | None => (None, (h, q))
  | Some node => (Some node, detach node h q)
  end.

(** The nodes met from [p] along the [next] links, at most [fuel] of them. *)
Fixpoint walk (fuel : nat) (h : Heap) (p : option ptr) : list ptr :=
  match fuel, p with
  | S fuel, Some n => n :: walk fuel h (next (deref h n))
  | _, _ => []
  end.

(** The list from head (most recently used) to tail. *)
Definition nodes (h : Heap) (q : LRUList) : list ptr :=
  walk (length h) h (head q).

Definition keys (h : Heap) (q : LRUList) : list string :=
  (fun p => fullKey (deref h p)) <$> nodes h q.
End LRUList.

(** ** Values and their normalisation to a [Buffer] *)

Abbreviation Buffer := (list Byte.byte).

(** [JSON.stringify] and [JSON.parse] are built-ins of the language.  They
    are modelled on the fragment of JSON values without fractional numbers:
    the numbers of a value are integers whose absolute value is below 2^53
    (printed in plain decimal, as the language does below 10^21), and a
    text whose numbers have a fraction or an exponent is outside the
    fragment ([parse] answers [None] on it, although the built-in reads
    it). *)
Module JSON.
#[local] Set Warnings "-register-all".

Inductive t :=
| Null
| Bool (b : bool)
| Number (z : Z)
| Str (s : string)
| Array (l : list t)
| Object (l : list (string * t)).

Definition dquote : ascii := ascii_of_nat 34.
Definition backslash : ascii := ascii_of_nat 92.

Definition hex_digit (n : nat) : ascii :=
  ascii_of_nat (if (n <? 10)%nat then 48 + n else 87 + n)%nat.

Definition escape_char (c : ascii) : string :=
  let n := nat_of_ascii c in
  if decide (c = dquote) then String backslash (String dquote "")
  else if decide (c = backslash) then String backslash (String backslash "")
  else if decide (n = 8)%nat then String backslash "b"
  else if decide (n = 9)%nat then String backslash "t"
  else if decide (n = 10)%nat then String backslash "n"
  else if decide (n = 12)%nat then String backslash "f"
  else if decide (n = 13)%nat then String backslash "r"
  else if (n <? 32)%nat then
    String backslash
      ("u00" +:+ String (hex_digit (n / 16)) (String (hex_digit (n mod 16)) ""))
  else String c "".

Fixpoint escape (s : string) : string :=
  match s with
  | EmptyString => ""
  | String c s' => escape_char c +:+ escape s'
  end.

Definition quote (s : string) : string :=
  String dquote (escape s +:+ String dquote "").

Definition number_to_string (z : Z) : string :=
  DecimalString.NilZero.string_of_int (Z.to_int z).

Fixpoint stringify (j : t) : string :=
  match j with
  | Null => "null"
  | Bool true => "true"
  | Bool false => "false"
  | Number z => number_to_string z
  | Str s => quote s
  | Array l => "[" +:+ String.concat "," (map stringify l) +:+ "]"
  | Object l =>
      "{" +:+ String.concat ","
                (map (fun kv => quote kv.1 +:+ ":" +:+ stringify kv.2) l)
          +:+ "}"
  end.

(** *** Parsing *)

Definition is_ws (c : ascii) : bool :=
  let n := nat_of_ascii c in
  bool_decide (n = 32 ∨ n = 9 ∨ n = 10 ∨ n = 13)%nat.

Fixpoint skip_ws (s : string) : string :=
  match s with
  | String c s' => if is_ws c then skip_ws s' else s
  | EmptyString => s
  end.

Definition digit_of (c : ascii) : option Z :=
  let n := nat_of_ascii c in
  if ((48 <=? n) && (n <=? 57))%nat then Some (Z.of_nat (n - 48)) else None.

Fixpoint parse_digits (acc : Z) (s : string) : Z * string :=
  match s with
  | String c s' =>
      match digit_of c with
      | Some d => parse_digits (10 * acc + d) s'
      | None => (acc, s)
      end
  | EmptyString => (acc, s)
  end.

(** An integer literal: [0], or a digit from 1 to 9 and further digits.
    After a leading [0] the literal is over, so that the built-in's
    [SyntaxError] on [01] shows as a digit left unread. *)
Definition parse_number (s : string) : option (Z * string) :=
  let '(neg, s) :=
    match s with
    | String "-" s' => (true, s')
    | _ => (false, s)
    end in
  match s with
  | String c s' =>
      match digit_of c with
      | Some d =>
          let '(n, rest) := if decide (d = 0) then (0, s') else parse_digits 0 s in
          Some (if neg then - n else n, rest)
      | None => None
      end
  | EmptyString => None
  end.

Definition hex_value (c : ascii) : option nat :=
  let n := nat_of_ascii c in
  if ((48 <=? n) && (n <=? 57))%nat then Some (n - 48)%nat
  else if ((97 <=? n) && (n <=? 102))%nat then Some (n - 87)%nat
  else if ((65 <=? n) && (n <=? 70))%nat then Some (n - 55)%nat
  else None.

(** The text of a string literal, after its opening quote. *)
Fixpoint parse_string (s : string) : option (string * string) :=
  match s with
  | EmptyString => None
  | String c s' =>
      if decide (c = dquote) then Some ("", s')
      else if decide (c = backslash) then
        match s' with
        | String "u" (String "0" (String "0" (String h1 (String h2 s'')))) =>
            a ← hex_value h1; b ← hex_value h2;
            '(str, rest) ← parse_string s'';
            Some (String (ascii_of_nat (16 * a + b)) str, rest)
        | String e s'' =>
            d ← (if decide (e = dquote) then Some dquote
                 else if decide (e = backslash) then Some backslash
                 else if decide (e = "/"%char) then Some "/"%char
                 else if decide (e = "b"%char) then Some (ascii_of_nat 8)
                 else if decide (e = "t"%char) then Some (ascii_of_nat 9)
                 else if decide (e = "n"%char) then Some (ascii_of_nat 10)
                 else if decide (e = "f"%char) then Some (ascii_of_nat 12)
                 else if decide (e = "r"%char) then Some (ascii_of_nat 13)
                 else None);
            '(str, rest) ← parse_string s'';
            Some (String d str, rest)
        | EmptyString => None
        end
      else
        '(str, rest) ← parse_string s';
        Some (String c str, rest)
  end.

Definition expect (lit : string) (s : string) (j : t) : option (t * string) :=
  if String.prefix lit s
  then Some (j, String.substring (String.length lit)
                   (String.length s - String.length lit) s)
  else None.

(** Items separated by commas up to the closing bracket [close]. *)
Fixpoint parse_items {A} (item : string → option (A * string)) (close : ascii)
    (fuel : nat) (s : string) : option (list A * string) :=
  match fuel with
  | O => None
  | S fuel =>
      '(x, s) ← item s;
      match skip_ws s with
      | String c s' =>
          if decide (c = ","%char) then
            '(xs, s'') ← parse_items item close fuel s'; Some (x :: xs, s'')
          else if decide (c = close) then Some ([x], s')
          else None
      | EmptyString => None
      end
  end.

Fixpoint parse_value (fuel : nat) (s : string) : option (t * string) :=
  match fuel with
  | O => None
  | S fuel =>
      match skip_ws s with
      | EmptyString => None
      | String c rest as s =>
          if decide (c = "n"%char) then expect "null" s Null
          else if decide (c = "t"%char) then expect "true" s (Bool true)
          else if decide (c = "f"%char) then expect "false" s (Bool false)
          else if decide (c = dquote) then
            '(str, rest) ← parse_string rest; Some (Str str, rest)
          else if decide (c = "["%char) then
            match skip_ws rest with
            | String "]" rest' => Some (Array [], rest')
            | _ =>
                '(l, rest) ← parse_items (parse_value fuel) "]"%char fuel rest;
                Some (Array l, rest)
            end
          else if decide (c = "{"%char) then
            match skip_ws rest with
            | String "}" rest' => Some (Object [], rest')
            | _ =>
                let member s :=
                  match skip_ws s with
                  | String q s =>
                      if decide (q = dquote) then
                        '(k, s) ← parse_string s;
                        match skip_ws s with
                        | String ":" s =>
                            '(v, s) ← parse_value fuel s; Some ((k, v), s)
                        | _ => None
                        end
                      else None
                  | EmptyString => None
                  end in
                '(l, rest) ← parse_items member "}"%char fuel rest;
                Some (Object l, rest)
            end
          else
            '(z, rest) ← parse_number s; Some (Number z, rest)
      end
  end.

(** [JSON.parse]: [None] stands for the [SyntaxError] it throws. *)
Definition parse (s : string) : option t :=
  match parse_value (S (String.length s)) s with
  | Some (j, rest) =>
      match skip_ws rest with
      | EmptyString => Some j
      | _ => None
      end
  | None => None
  end.
End JSON.

Inductive Value :=
| VBuffer (b : Buffer)
| VString (s : string)
| VObject (j : JSON.t).

(** [Buffer.from(s)] and [buf.toString()].  A string is its UTF-8 bytes, so
    both keep the bytes; this is [buf.toString()] on buffers that hold
    valid UTF-8, as every buffer made by [Buffer.from(s)] does (on other
    bytes the built-in puts U+FFFD). *)
Definition Buffer_from (s : string) : Buffer := String.list_byte_of_string s.
Definition Buffer_toString (b : Buffer) : string := String.string_of_list_byte b.

(** The first lines of [set]: a buffer is kept, a string is encoded, an
    object is serialised. *)
Definition normalize (value : Value) : Buffer :=
  match value with
  | VBuffer b => b
  | VString s => Buffer_from s
  | VObject j => Buffer_from (JSON.stringify j)
  end.

(** ** The cache engine *)

Record CacheEntry := mkEntry {
  value : Buffer;
  expiresAt : N;
  lruNode : ptr;
  size : Z
}.

(** [ttlMs] is [None] when the option is left out. *)
Record SetOptions := mkOptions { ttlMs : option Z }.

Record InMemoryCache := mkCache {
  store : list (string * CacheEntry);
  heap : Heap;
  lru : LRUList;
  maxBytes : Z;
  usedBytes : Z
}.

Module Stats.
Record t := mk { keys : nat; usedBytes : Z; maxBytes : Z }.
End Stats.

(** The constructor, with [options.maxBytes] ([None] when it is left out). *)
Definition new (maxBytes : option Z) : InMemoryCache :=
  mkCache [] [] LRUList.empty (default (64 * 1024 * 1024) maxBytes) 0.

(** [`${ns}:${key}`] *)
Definition makeFullKey (ns key : string) : string := ns +:+ ":" +:+ key.

(** [entry.expiresAt > 0 && entry.expiresAt <= Date.now()] *)
Definition expired (now : N) (entry : CacheEntry) : bool :=
  ((0 <? expiresAt entry) && (expiresAt entry <=? now))%N.

(** The removal path shared by [delete], [clearNamespace] and [sweepExpired]:
    [usedBytes -= entry.size; lru.detach(entry.lruNode); store.delete(fullKey)]. *)
Definition remove_entry (fullKey : string) (entry : CacheEntry)
    (c : InMemoryCache) : InMemoryCache :=
  let '(h, q) := LRUList.detach (lruNode entry) (heap c) (lru c) in
  mkCache (Map.delete fullKey (store c)) h q (maxBytes c)
          (usedBytes c - size entry).

(** The loop of [evictUntilWithinBudget]; [None] when [fuel] iterations do
    not finish it. *)
Fixpoint evict_loop (fuel : nat) (c : InMemoryCache) : option InMemoryCache :=
  (* while (this.usedBytes > this.maxBytes) *)
  if usedBytes c >? maxBytes c then
    match fuel with
    | O => None
    | S fuel =>
        (* const victim = this.lru.popBack() *)
        match LRUList.popBack (heap c) (lru c) with
        | (None, _) => Some c                              (* break *)
        | (Some victim, (h, q)) =>
            (* const entry = this.store.get(victim.fullKey) *)
            let k := fullKey (Heap.deref h victim) in
            match Map.get k (store c) with
            | None =>                                      (* continue *)
                evict_loop fuel (mkCache (store c) h q (maxBytes c) (usedBytes c))
            | Some entry =>
                (* this.usedBytes -= entry.size; this.store.delete(...) *)
                evict_loop fuel
                  (mkCache (Map.delete k (store c)) h q (maxBytes c)
                           (usedBytes c - size entry))
            end
        end
    end
  else Some c.

(** Every iteration pops a node, so one more iteration than there are nodes
    on the heap is enough (see [evict_loop_terminates]). *)
Definition evictUntilWithinBudget (c : InMemoryCache) : InMemoryCache :=
  default c (evict_loop (S (length (heap c))) c).

(** [set] up to the call of [evictUntilWithinBudget].  On a key that is
    present the entry object is updated where it stands in the map
    ([Map.set] keeps its position) and keeps its node. *)
Definition set_entry (now : N) (ns key : string) (value : Value)
    (opts : SetOptions) (c : InMemoryCache) : InMemoryCache :=
  let buf := normalize value in
  let fullKey := makeFullKey ns key in
  let ttlMs := default 0 (ttlMs opts) in
  let expiresAt := if 0 <? ttlMs then (now + Z.to_N ttlMs)%N else 0%N in
  match Map.get fullKey (store c) with
  | Some exists_ =>
      let delta := Z.of_nat (length buf) - size exists_ in
      let entry := mkEntry buf expiresAt (lruNode exists_) (Z.of_nat (length buf)) in
      let '(h, q) := LRUList.moveToFront (lruNode exists_) (heap c) (lru c) in
      mkCache (Map.set fullKey entry (store c)) h q (maxBytes c)
              (usedBytes c + delta)
  | None =>
      let '(node, h) := Heap.alloc fullKey (heap c) in
      let entry := mkEntry buf expiresAt node (Z.of_nat (length buf)) in
      let '(h, q) := LRUList.pushFront node h (lru c) in
      mkCache (Map.set fullKey entry (store c)) h q (maxBytes c)
              (usedBytes c + size entry)
  end.

Definition set (now : N) (ns key : string) (value : Value)
    (opts : SetOptions) (c : InMemoryCache) : InMemoryCache :=
  evictUntilWithinBudget (set_entry now ns key value opts c).

Definition delete (ns key : string) (c : InMemoryCache) : bool * InMemoryCache :=
  let fullKey := makeFullKey ns key in
  match Map.get fullKey (store c) with
  | None => (false, c)
  | Some entry => (true, remove_entry fullKey entry c)
  end.

Definition get (now : N) (ns key : string) (c : InMemoryCache)
    : option Buffer * InMemoryCache :=
  let fullKey := makeFullKey ns key in
  match Map.get fullKey (store c) with
  | None => (None, c)
  | Some entry =>
      if expired now entry then (None, (delete ns key c).2)
      else
        let '(h, q) := LRUList.moveToFront (lruNode entry) (heap c) (lru c) in
        (Some (value entry), mkCache (store c) h q (maxBytes c) (usedBytes c))
  end.

Definition has (now : N) (ns key : string) (c : InMemoryCache)
    : bool * InMemoryCache :=
  let fullKey := makeFullKey ns key in
  match Map.get fullKey (store c) with
  | None => (false, c)
  | Some entry =>
      if expired now entry then (false, (delete ns key c).2)
      else (true, c)
  end.

(** The loop runs over the keys as they stand when it starts: a key is
    removed from the map only when the loop is at it, and a [Map] iterator
    goes on to the next key after the one it is at has been deleted.  The
    [None] case stands for the non-null assertion of
    [this.store.get(fullKey)!]. *)
Definition clearNamespace (ns : string) (c : InMemoryCache) : nat * InMemoryCache :=
  fold_left
    (fun '(removed, c) fullKey =>
       if String.prefix (ns +:+ ":") fullKey then
         match Map.get fullKey (store c) with
         | Some entry => (S removed, remove_entry fullKey entry c)
         | None => (removed, c)
         end
       else (removed, c))
    (Map.keys (store c)) (0%nat, c).

Definition stats (c : InMemoryCache) : Stats.t :=
  Stats.mk (Map.size (store c)) (usedBytes c) (maxBytes c).

(** One pass of the sweeper, with [now] read once before the loop. *)
Definition sweepExpired (now : N) (c : InMemoryCache) : InMemoryCache :=
  fold_left
    (fun c '(fullKey, entry) =>
       if expired now entry then remove_entry fullKey entry c else c)
    (store c) c.

(** * Specification *)

(** ** Representation of the recency list *)

Definition first_or (l : list ptr) (d : option ptr) : option ptr :=
  match l with
  | [] => d
  | p :: _ => Some p
  end.

Definition last_or (l : list ptr) (d : option ptr) : option ptr :=
  match last l with
  | Some p => Some p
  | None => d
  end.

(** [seg h pv l nx]: on the heap [h] the nodes [l] are linked in this order;
    the first one's [prev] is [pv] and the last one's [next] is [nx]. *)
Fixpoint seg (h : Heap) (pv : option ptr) (l : list ptr) (nx : option ptr) : Prop :=
  match l with
  | [] => True
  | p :: l' =>
      (∃ nd, h !! p = Some nd ∧ prev nd = pv ∧ next nd = first_or l' nx)
      ∧ seg h (Some p) l' nx
  end.

(** [dll h q l]: the list [q] holds exactly the nodes [l], head first. *)
Definition dll (h : Heap) (q : LRUList) (l : list ptr) : Prop :=
  NoDup l ∧ head q = hd_error l ∧ tail q = last l ∧ seg h None l None.

(** The nodes met from [p] along the [prev] links, at most [fuel] of them,
    and the list read from its tail to its head. *)
Fixpoint walk_back (fuel : nat) (h : Heap) (p : option ptr) : list ptr :=
  match fuel, p with
  | S fuel, Some n => n :: walk_back fuel h (prev (Heap.deref h n))
  | _, _ => []
  end.

Definition nodes_back (h : Heap) (q : LRUList) : list ptr :=
  walk_back (length h) h (tail q).

(** A node that stands alone: no neighbour on either side. *)
Definition unlinked (h : Heap) (p : ptr) : Prop :=
  prev (Heap.deref h p) = None ∧ next (Heap.deref h p) = None.

(** ** The invariant of the engine *)

Definition total_size (m : list (string * CacheEntry)) : Z :=
  foldr (fun kv acc => size kv.2 + acc) 0 m.

(** The key a node carries. *)
Definition key_of (h : Heap) (p : ptr) : string := fullKey (Heap.deref h p).

(** [cache_rep c l]: the recency list of [c] is the sequence of nodes [l],
    the entries and the nodes of [l] correspond one to one through
    [lruNode] and [fullKey], and [usedBytes] is the sum of the sizes. *)
Record cache_rep (c : InMemoryCache) (l : list ptr) : Prop := mkRep {
  rep_dll : dll (heap c) (lru c) l;
  rep_keys : NoDup (Map.keys (store c));
  rep_entry : ∀ k e, Map.get k (store c) = Some e →
                lruNode e ∈ l ∧ key_of (heap c) (lruNode e) = k;
  rep_node : ∀ p, p ∈ l →
               ∃ e, Map.get (key_of (heap c) p) (store c) = Some e ∧ lruNode e = p;
  rep_used : usedBytes c = total_size (store c);
  rep_size : ∀ k e, Map.get k (store c) = Some e →
               size e = Z.of_nat (length (value e))
}.

Definition cache_inv (c : InMemoryCache) : Prop := ∃ l, cache_rep c l.

(** The keys of the recency list, most recently used first. *)
Definition lru_keys (c : InMemoryCache) : list string :=
  LRUList.keys (heap c) (lru c).

(** [usedBytes] is the exact sum of the sizes, and the recency list holds
    the keys of the table, each once. *)
Definition consistent (c : InMemoryCache) : Prop :=
  usedBytes c = total_size (store c) ∧ lru_keys c ≡ₚ Map.keys (store c).

(** ** Values and keys *)

(** [buf.length] of the buffer a value is stored as. *)
Definition byteLength (v : Value) : Z := Z.of_nat (length (normalize v)).

(** The value of end-to-end scenario 1, [{a: 1}]. *)
Definition object_a1 : JSON.t := JSON.Object [("a", JSON.Number 1)].

(** A namespace or a key that holds the separator [":"]. *)
Fixpoint has_separator (s : string) : bool :=
  match s with
  | EmptyString => false
  | String ch s' => bool_decide (ch = ":"%char) || has_separator s'
  end.

(** ** What the first half of [set] does

    [written now fk v opts c c' l p e]: from the state [c] with recency
    list [l], writing [v] under the identity [fk] at time [now] reaches
    [c'], where the entry [e] of [fk] holds the normalised value and its
    node [p] heads the recency list, in front of the other nodes of [l] in
    their order. *)
Record written (now : N) (fk : string) (v : Value) (opts : SetOptions)
    (c c' : InMemoryCache) (l : list ptr) (p : ptr) (e : CacheEntry) : Prop :=
  mkWritten {
  wr_rep : cache_rep c' (p :: filter (λ x, x ≠ p) l);
  wr_store : store c' = Map.set fk e (store c);
  wr_node : lruNode e = p;
  wr_value : value e = normalize v;
  wr_expires :
    expiresAt e = if 0 <? default 0 (ttlMs opts)
                  then (now + Z.to_N (default 0%Z (ttlMs opts)))%N else 0%N;
  wr_max : maxBytes c' = maxBytes c;
  wr_key : ∀ x, x ∈ l → key_of (heap c') x = key_of (heap c) x;
  wr_old : ∀ x, x ∈ l → key_of (heap c) x = fk ↔ x = p
}.

(** ** The victims of budget enforcement

    [evict_skips fuel c]: the loop of [evictUntilWithinBudget] run from [c]
    for at most [fuel] iterations, counting the iterations that take the
    branch [if (!entry) continue], where the node popped has no entry in
    the table. *)
Fixpoint evict_skips (fuel : nat) (c : InMemoryCache) : nat :=
  if usedBytes c >? maxBytes c then
    match fuel with
    | O => 0%nat
    | S fuel =>
        match LRUList.popBack (heap c) (lru c) with
        | (None, _) => 0%nat
        | (Some victim, (h, q)) =>
            let k := fullKey (Heap.deref h victim) in
            match Map.get k (store c) with
            | None =>
                S (evict_skips fuel
                     (mkCache (store c) h q (maxBytes c) (usedBytes c)))
            | Some entry =>
                evict_skips fuel
                  (mkCache (Map.delete k (store c)) h q (maxBytes c)
                           (usedBytes c - size entry))
            end
        end
    end
  else 0%nat.

(** ** What budget enforcement does

    [eviction c c' l l1 l2]: from the state [c] with recency list [l] the
    loop reaches [c'] by evicting the nodes [l2] at the tail of [l], the
    last of them first, and keeping the nodes [l1] at its head. *)
Record eviction (c c' : InMemoryCache) (l l1 l2 : list ptr) : Prop := mkEviction {
  ev_split : l = l1 ++ l2;
  ev_rep : cache_rep c' l1;
  ev_max : maxBytes c' = maxBytes c;
  (* the loop stops within budget, or with nothing left *)
  ev_final : usedBytes c' ≤ maxBytes c ∨ l1 = [];
  (* the entries that stay are those of the nodes that stay *)
  ev_store : ∀ k e, Map.get k (store c') = Some e ↔
                    Map.get k (store c) = Some e ∧ lruNode e ∈ l1;
  ev_key : ∀ x, key_of (heap c') x = key_of (heap c) x;
  (* nothing is evicted from a state within budget *)
  ev_none : l2 = [] → c' = c;
  (* the node evicted last was evicted because the cache was over budget *)
  ev_over : ∀ x l2' e, l2 = x :: l2' →
              Map.get (key_of (heap c) x) (store c) = Some e →
              usedBytes c' + size e > maxBytes c
}.

(** ** The walks of [clearNamespace] and [sweepExpired]

    [purge P m c] visits the entries [m] and removes those that [P] picks;
    [purged P m] are the entries that stay. *)

Definition purge (P : string → CacheEntry → bool)
    (m : list (string * CacheEntry)) (c : InMemoryCache) : InMemoryCache :=
  fold_left (fun c '(k, e) => if P k e then remove_entry k e c else c) m c.

Definition purged (P : string → CacheEntry → bool)
    (m : list (string * CacheEntry)) : list (string * CacheEntry) :=
  filter (λ kv, P kv.1 kv.2 = false) m.

(** [survives P m k]: the walk [purge P m] leaves the key [k] alone. *)
Definition survives (P : string → CacheEntry → bool)
    (m : list (string * CacheEntry)) (k : string) : bool :=
  match Map.get k m with
  | Some e => negb (P k e)
  | None => true
  end.

(** The test of [clearNamespace]: [fullKey.startsWith(`${ns}:`)]. *)
Definition in_namespace (ns : string) : string → CacheEntry → bool :=
  fun k _ => String.prefix (ns +:+ ":") k.

(** ** Operations on one key

    [same_elsewhere fk c c']: the states [c] and [c'] agree on every key
    other than [fk]: the same entries, in the same relative order in the
    recency list, under the same budget. *)
Definition same_elsewhere (fk : string) (c c' : InMemoryCache) : Prop :=
  (∀ k, k ≠ fk → Map.get k (store c') = Map.get k (store c))
  ∧ filter (λ k, k ≠ fk) (lru_keys c') = filter (λ k, k ≠ fk) (lru_keys c)
  ∧ maxBytes c' = maxBytes c.

(** ** Reachable states *)

Inductive Op :=
| OpSet (now : N) (ns key : string) (value : Value) (opts : SetOptions)
| OpGet (now : N) (ns key : string)
| OpHas (now : N) (ns key : string)
| OpDelete (ns key : string)
| OpClearNamespace (ns : string)
| OpEvict
| OpSweep (now : N).

Definition step (c : InMemoryCache) (o : Op) : InMemoryCache :=
  match o with
  | OpSet now ns key value opts => set now ns key value opts c
  | OpGet now ns key => (get now ns key c).2
  | OpHas now ns key => (has now ns key c).2
  | OpDelete ns key => (delete ns key c).2
  | OpClearNamespace ns => (clearNamespace ns c).2
  | OpEvict => evictUntilWithinBudget c
  | OpSweep now => sweepExpired now c
  end.

(** The states of a cache built by the constructor and used through any
    sequence of operations and sweeper passes. *)
Inductive reachable : InMemoryCache → Prop :=
| reachable_new maxBytes : reachable (new maxBytes)
| reachable_step c o : reachable c → reachable (step c o).

(** * Verification *)

Ltac decide_keys :=
  repeat first
    [ rewrite decide_True by done
    | rewrite decide_False by (done || congruence) ].

(** ** The heap *)

Section heap_facts.
Import Heap.
Implicit Types (h : Heap) (p a b x : ptr) (v : option ptr).

Lemma deref_lookup h p nd : h !! p = Some nd → deref h p = nd.
Proof. unfold deref. by intros ->. Qed.

Lemma write_next_lookup_ne h a v x :
  a ≠ x → write_next a v h !! x = h !! x.
Proof. apply list_lookup_alter_ne. Qed.

Lemma write_prev_lookup_ne h a v x :
  a ≠ x → write_prev a v h !! x = h !! x.
Proof. apply list_lookup_alter_ne. Qed.

Lemma write_next_lookup_eq h a v nd :
  h !! a = Some nd → write_next a v h !! a = Some (set_next v nd).
Proof. intros E. unfold write_next. by rewrite list_lookup_alter_eq, E. Qed.

Lemma write_prev_lookup_eq h a v nd :
  h !! a = Some nd → write_prev a v h !! a = Some (set_prev v nd).
Proof. intros E. unfold write_prev. by rewrite list_lookup_alter_eq, E. Qed.

Lemma write_next_length h a v : length (write_next a v h) = length h.
Proof. apply length_alter. Qed.

Lemma write_prev_length h a v : length (write_prev a v h) = length h.
Proof. apply length_alter. Qed.

(** Writing a link never changes the key of a node. *)
Lemma write_next_key h a v x :
  fullKey (deref (write_next a v h) x) = fullKey (deref h x).
Proof.
  unfold deref, write_next. rewrite list_lookup_alter.
  case_decide; [subst; by destruct (h !! x)|done].
Qed.

Lemma write_prev_key h a v x :
  fullKey (deref (write_prev a v h) x) = fullKey (deref h x).
Proof.
  unfold deref, write_prev. rewrite list_lookup_alter.
  case_decide; [subst; by destruct (h !! x)|done].
Qed.
End heap_facts.

(** ** The recency list as a sequence of nodes *)

Section seg_facts.
Import Heap.
Implicit Types (h : Heap) (p a b x : ptr) (l : list ptr) (v pv nx : option ptr).

Lemma first_or_app l1 l2 d : first_or (l1 ++ l2) d = first_or l1 (first_or l2 d).
Proof. by destruct l1. Qed.

Lemma last_or_cons p l d : last_or (p :: l) d = last_or l (Some p).
Proof.
  unfold last_or. rewrite last_cons. by destruct (last l).
Qed.

Lemma first_or_None l : first_or l None = hd_error l.
Proof. by destruct l. Qed.

Lemma last_or_None l : last_or l None = last l.
Proof. unfold last_or. by destruct (last l). Qed.

Lemma seg_app h pv l1 l2 nx :
  seg h pv (l1 ++ l2) nx ↔
  seg h pv l1 (first_or l2 nx) ∧ seg h (last_or l1 pv) l2 nx.
Proof.
  revert pv. induction l1 as [|p l1 IH]; intros pv; simpl.
  - unfold last_or; simpl. tauto.
  - rewrite IH, first_or_app, last_or_cons. tauto.
Qed.

Lemma seg_frame h h' pv l nx :
  (∀ x, x ∈ l → h' !! x = h !! x) → seg h pv l nx → seg h' pv l nx.
Proof.
  revert pv. induction l as [|p l IH]; intros pv Hf; simpl; [done|].
  intros [(nd & E & ?) Hs]. split.
  - exists nd. rewrite Hf by apply list_elem_of_here. done.
  - apply IH; [|done]. intros x Hx. apply Hf. by apply list_elem_of_further.
Qed.

Lemma seg_lookup h pv l nx x :
  seg h pv l nx → x ∈ l → is_Some (h !! x).
Proof.
  revert pv. induction l as [|p l IH]; intros pv; simpl.
  - by intros _ ?%elem_of_nil.
  - intros [(nd & E & _) Hs] [->|Hx]%elem_of_cons; eauto.
Qed.

(** Redirecting the [next] link of the last node. *)
Lemma seg_write_last_next h pv l nx nx' :
  NoDup l → seg h pv l nx →
  seg (match last l with Some a => write_next a nx' h | None => h end) pv l nx'.
Proof.
  revert pv. induction l as [|p l IH]; intros pv Hnd; [done|].
  apply NoDup_cons in Hnd as [Hp Hnd].
  intros [(nd & E & Hpv & Hnx) Hs].
  destruct l as [|p' l].
  - simpl. split; [|done]. exists (set_next nx' nd).
    by rewrite (write_next_lookup_eq _ _ _ nd).
  - specialize (IH (Some p) Hnd Hs).
    rewrite last_cons_cons.
    destruct (last (p' :: l)) as [a|] eqn:El.
    + assert (a ≠ p) by (intros ->; apply Hp; by apply last_Some_elem_of).
      split; [|done]. exists nd. by rewrite write_next_lookup_ne.
    + by apply last_None in El.
Qed.

(** Redirecting the [prev] link of the first node. *)
Lemma seg_write_first_prev h pv l nx pv' :
  NoDup l → seg h pv l nx →
  seg (match hd_error l with Some b => write_prev b pv' h | None => h end) pv' l nx.
Proof.
  destruct l as [|p l]; simpl; [done|].
  intros [Hp Hnd]%NoDup_cons [(nd & E & Hpv & Hnx) Hs]. split.
  - exists (set_prev pv' nd). by rewrite (write_prev_lookup_eq _ _ _ nd).
  - eapply seg_frame; [|done]. intros x Hx.
    apply write_prev_lookup_ne. by intros ->.
Qed.
End seg_facts.

(** ** The operations of the recency list *)

Section lru_facts.
Import Heap LRUList.
Implicit Types (h : Heap) (q : LRUList) (p a b x : ptr) (l : list ptr).

Lemma detach_length p h q : length (detach p h q).1 = length h.
Proof.
  unfold detach; simpl.
  rewrite write_next_length, write_prev_length.
  destruct (prev (deref h p)), (next (deref _ p));
    by rewrite ?write_prev_length, ?write_next_length.
Qed.

Lemma detach_key p h q x :
  fullKey (deref (detach p h q).1 x) = fullKey (deref h x).
Proof.
  unfold detach; simpl.
  rewrite write_next_key, write_prev_key.
  destruct (prev (deref h p)), (next (deref _ p));
    by rewrite ?write_prev_key, ?write_next_key.
Qed.

Lemma opt_write_next_ne (o : option ptr) v h x :
  o ≠ Some x →
  match o with Some a => write_next a v h | None => h end !! x = h !! x.
Proof.
  destruct o as [a|]; [|done]. intros Ha.
  apply write_next_lookup_ne. congruence.
Qed.

Lemma opt_write_prev_ne (o : option ptr) v h x :
  o ≠ Some x →
  match o with Some a => write_prev a v h | None => h end !! x = h !! x.
Proof.
  destruct o as [a|]; [|done]. intros Ha.
  apply write_prev_lookup_ne. congruence.
Qed.

Lemma head_elem_of l x : hd_error l = Some x → x ∈ l.
Proof. destruct l; [done|]. intros [= ->]. apply list_elem_of_here. Qed.

Lemma detach_spec h q l1 p l2 :
  dll h q (l1 ++ p :: l2) →
  dll (detach p h q).1 (detach p h q).2 (l1 ++ l2)
  ∧ ∃ nd, (detach p h q).1 !! p = Some nd ∧ prev nd = None ∧ next nd = None.
Proof.
  intros (Hnd & Hhd & Htl & Hseg).
  apply seg_app in Hseg as [Hs1 Hs2]. simpl in Hs1, Hs2.
  destruct Hs2 as [(nd & E & Hpv & Hnx) Hs2].
  rewrite last_or_None in Hpv. rewrite first_or_None in Hnx.
  pose proof Hnd as Hnd'.
  apply NoDup_app in Hnd as (Hnd1 & Hdisj & [Hp2 Hnd2]%NoDup_cons).
  assert (Hp1 : p ∉ l1).
  { intros Hp. apply (Hdisj _ Hp), list_elem_of_here. }
  assert (Hdisj' : ∀ x, x ∈ l1 → x ∉ l2).
  { intros x Hx Hx'. apply (Hdisj _ Hx). by apply list_elem_of_further. }
  unfold detach. rewrite (deref_lookup _ _ _ E), Hpv, Hnx.
  set (h1 := match last l1 with Some a => write_next a _ h | None => h end).
  assert (E1 : h1 !! p = Some nd).
  { subst h1. rewrite opt_write_next_ne; [done|].
    intros Hl. by apply last_Some_elem_of in Hl. }
  assert (S1a : seg h1 None l1 (hd_error l2))
    by by apply (seg_write_last_next h None l1 (Some p)).
  assert (S1b : seg h1 (Some p) l2 None).
  { eapply seg_frame; [|done]. intros x Hx. subst h1.
    apply opt_write_next_ne. intros Hl%last_Some_elem_of. by apply (Hdisj' x). }
  rewrite (deref_lookup _ _ _ E1), Hpv, Hnx.
  set (h2 := match hd_error l2 with Some b => write_prev b _ h1 | None => h1 end).
  assert (E2 : h2 !! p = Some nd).
  { subst h2. rewrite opt_write_prev_ne; [done|].
    intros Hl. by apply head_elem_of in Hl. }
  assert (S2a : seg h2 None l1 (hd_error l2)).
  { eapply seg_frame; [|done]. intros x Hx. subst h2.
    apply opt_write_prev_ne. intros Hl%head_elem_of. by apply (Hdisj' x). }
  assert (S2b : seg h2 (last l1) l2 None)
    by by apply (seg_write_first_prev h1 (Some p) l2 None).
  rewrite (deref_lookup _ _ _ E2), Hpv, Hnx.
  set (h4 := write_next p None (write_prev p None h2)).
  assert (E4 : h4 !! p = Some (mkNode (fullKey nd) None None)).
  { subst h4. rewrite (write_next_lookup_eq _ _ _ (set_prev None nd)); [done|].
    by apply write_prev_lookup_eq. }
  assert (F4 : ∀ x, x ≠ p → h4 !! x = h2 !! x).
  { intros x Hx. subst h4.
    rewrite write_next_lookup_ne, write_prev_lookup_ne; done. }
  assert (Hh : head q = Some p ↔ l1 = []).
  { rewrite Hhd. destruct l1 as [|a l1]; [done|]. simpl. split; [|done].
    intros [= ->]. exfalso. apply Hp1, list_elem_of_here. }
  assert (Ht : tail q = Some p ↔ l2 = []).
  { rewrite Htl, last_app, last_cons. destruct l2 as [|b l2]; [done|].
    destruct (last (b :: l2)) as [c|] eqn:El; [|by apply last_None in El].
    split; [|done]. intros [= ->]. by apply last_Some_elem_of in El. }
  simpl. split; [|eauto].
  split; [|split; [|split]].
  - apply NoDup_app. split; [done|]. split; done.
  - destruct (decide (head q = Some p)) as [Hq|Hq]; simpl.
    + apply Hh in Hq as ->. by case_decide.
    + case_decide; simpl; rewrite Hhd; (destruct l1; [by destruct Hq; apply Hh|done]).
  - destruct (decide (head q = Some p)) as [Hq|Hq]; simpl;
      (destruct (decide (tail q = Some p)) as [Hq'|Hq']; simpl;
       [apply Ht in Hq' as ->; by rewrite app_nil_r|]);
      rewrite Htl, !last_app, last_cons;
      (destruct l2 as [|b l2]; [by destruct Hq'; apply Ht|]);
      (destruct (last (b :: l2)) eqn:El; [done|by apply last_None in El]).
  - apply seg_app. rewrite first_or_None, last_or_None.
    split; (eapply seg_frame; [|done]); intros x Hx; apply F4; by intros ->.
Qed.

(** Linking a node that is not in the list in front of it. *)
Lemma link_front_spec h q l p nd :
  dll h q l → p ∉ l → h !! p = Some nd → prev nd = None →
  dll (link_front p h q).1 (link_front p h q).2 (p :: l).
Proof.
  intros (Hnd & Hhd & Htl & Hseg) Hp E Hpv.
  unfold link_front; simpl. rewrite Hhd.
  set (h1 := write_next p (hd_error l) h).
  assert (E1 : h1 !! p = Some (set_next (hd_error l) nd))
    by by apply write_next_lookup_eq.
  assert (S1 : seg h1 None l None).
  { eapply seg_frame; [|done]. intros x Hx.
    apply write_next_lookup_ne. by intros ->. }
  split; [|split; [|split]].
  - by apply NoDup_cons.
  - by destruct (tail q).
  - rewrite last_cons, <-Htl. by destruct (tail q).
  - simpl. split.
    + exists (set_next (hd_error l) nd). rewrite opt_write_prev_ne.
      * by rewrite first_or_None.
      * by intros ?%head_elem_of.
    + by apply (seg_write_first_prev h1 None l None).
Qed.

Lemma link_front_length p h q : length (link_front p h q).1 = length h.
Proof.
  unfold link_front; simpl.
  destruct (head q); by rewrite ?write_prev_length, ?write_next_length.
Qed.

Lemma link_front_key p h q x :
  fullKey (deref (link_front p h q).1 x) = fullKey (deref h x).
Proof.
  unfold link_front; simpl.
  destruct (head q); by rewrite ?write_prev_key, ?write_next_key.
Qed.

Lemma pushFront_spec h q l p :
  dll h q l → p ∉ l → is_Some (h !! p) →
  dll (pushFront p h q).1 (pushFront p h q).2 (p :: l).
Proof.
  intros (Hnd & Hhd & Htl & Hseg) Hp [nd E]. unfold pushFront.
  apply (link_front_spec _ _ _ _ (set_prev None nd)); [|done| |done].
  - repeat split; try done. eapply seg_frame; [|done]. intros x Hx.
    apply write_prev_lookup_ne. by intros ->.
  - by apply write_prev_lookup_eq.
Qed.

Lemma pushFront_length p h q : length (pushFront p h q).1 = length h.
Proof. unfold pushFront. by rewrite link_front_length, write_prev_length. Qed.

Lemma pushFront_key p h q x :
  fullKey (deref (pushFront p h q).1 x) = fullKey (deref h x).
Proof. unfold pushFront. by rewrite link_front_key, write_prev_key. Qed.

Lemma moveToFront_spec h q l1 p l2 :
  dll h q (l1 ++ p :: l2) →
  dll (moveToFront p h q).1 (moveToFront p h q).2 (p :: l1 ++ l2).
Proof.
  intros Hd. unfold moveToFront. case_decide as Hq.
  - destruct Hd as (Hnd & Hhd & Htl & Hseg). rewrite Hhd in Hq.
    destruct l1 as [|a l1]; [done|]. injection Hq as ->.
    apply NoDup_cons in Hnd as [Hnd _]. destruct Hnd.
    apply elem_of_app. right. apply list_elem_of_here.
  - pose proof Hd as (Hnd & _).
    apply detach_spec in Hd as (Hd & nd & E & Hpv & _).
    destruct (detach p h q) as [h' q']; simpl in *.
    apply (link_front_spec _ _ _ _ nd); [done| |done|done].
    apply NoDup_app in Hnd as (_ & Hdisj & [Hp2 _]%NoDup_cons).
    intros [Hp|Hp]%elem_of_app; [|done].
    apply (Hdisj _ Hp), list_elem_of_here.
Qed.

Lemma moveToFront_length p h q : length (moveToFront p h q).1 = length h.
Proof.
  unfold moveToFront. case_decide; [done|].
  pose proof (detach_length p h q) as Hl.
  destruct (detach p h q) as [h' q']; cbn [fst snd] in *.
  by rewrite link_front_length.
Qed.

Lemma moveToFront_key p h q x :
  fullKey (deref (moveToFront p h q).1 x) = fullKey (deref h x).
Proof.
  unfold moveToFront. case_decide; [done|].
  pose proof (detach_key p h q x) as Hk.
  destruct (detach p h q) as [h' q']; cbn [fst snd] in *.
  by rewrite link_front_key.
Qed.

Lemma popBack_nil h q : dll h q [] → popBack h q = (None, (h, q)).
Proof. intros (_ & _ & Htl & _). unfold popBack. by rewrite Htl. Qed.

Lemma popBack_snoc h q l p :
  dll h q (l ++ [p]) → popBack h q = (Some p, detach p h q).
Proof.
  intros (_ & _ & Htl & _). unfold popBack. by rewrite Htl, last_snoc.
Qed.

(** The walk along the [next] links finds the nodes in their order. *)
Lemma walk_seg (fuel : nat) h pv l :
  seg h pv l None → (length l ≤ fuel)%nat → walk fuel h (hd_error l) = l.
Proof.
  revert pv l. induction fuel as [|fuel IH]; intros pv [|p l]; simpl; try done.
  - lia.
  - intros [(nd & E & _ & Hnx) Hs] Hlen.
    rewrite (deref_lookup _ _ _ E), Hnx, first_or_None.
    f_equal. apply (IH (Some p)); [done|lia].
Qed.

Lemma dll_length h q l : dll h q l → (length l ≤ length h)%nat.
Proof.
  intros (Hnd & _ & _ & Hseg).
  rewrite <-(length_seq (length h) 0%nat). apply submseteq_length.
  apply NoDup_submseteq; [done|]. intros x Hx.
  apply elem_of_seq. split; [lia|].
  destruct (seg_lookup _ _ _ _ _ Hseg Hx) as [nd E].
  apply lookup_lt_Some in E. simpl. lia.
Qed.

Lemma dll_nodes h q l : dll h q l → nodes h q = l.
Proof.
  intros Hd. pose proof (dll_length _ _ _ Hd).
  destruct Hd as (_ & Hhd & _ & Hseg). unfold nodes. rewrite Hhd.
  by apply (walk_seg _ _ None).
Qed.

Lemma dll_empty h : dll h LRUList.empty [].
Proof. repeat split. apply NoDup_nil_2. Qed.

Lemma dll_nil_inv h q : dll h q [] → q = LRUList.empty.
Proof. intros (_ & Hhd & Htl & _). destruct q; simpl in *. by subst. Qed.
End lru_facts.

(** ** The entry table *)

Section map_facts.
Context {V : Type}.
Implicit Types (m : list (string * V)) (k : string) (v : V).

Lemma get_None m k : Map.get k m = None ↔ k ∉ Map.keys m.
Proof.
  unfold Map.keys. induction m as [|[k' v'] m IH]; simpl.
  - split; [|done]. by intros _ ?%elem_of_nil.
  - rewrite elem_of_cons. case_decide; simpl.
    + split; [done|]. intros []. by left.
    + rewrite IH. split; [by intros Hn [->|?]|].
      intros Hn Hk. apply Hn. by right.
Qed.

Lemma get_Some_elem m k v : Map.get k m = Some v → (k, v) ∈ m.
Proof.
  induction m as [|[k' v'] m IH]; simpl; [done|]. case_decide.
  - intros [= ->]. subst. apply list_elem_of_here.
  - intros ?. by apply list_elem_of_further, IH.
Qed.

Lemma get_Some_key m k v : Map.get k m = Some v → k ∈ Map.keys m.
Proof.
  intros Hg. destruct (decide (k ∈ Map.keys m)) as [|Hn]; [done|].
  apply get_None in Hn. congruence.
Qed.

Lemma elem_get m k v : NoDup (Map.keys m) → (k, v) ∈ m → Map.get k m = Some v.
Proof.
  unfold Map.keys. induction m as [|[k' v'] m IH]; simpl.
  - by intros _ ?%elem_of_nil.
  - intros [Hk Hnd]%NoDup_cons [[= -> ->]|Hin]%elem_of_cons.
    + by rewrite decide_True.
    + rewrite decide_False; [by apply IH|]. intros ->. apply Hk.
      by apply (list_elem_of_fmap_2 fst) in Hin.
Qed.

Lemma get_set m k v k' :
  Map.get k' (Map.set k v m) = if decide (k = k') then Some v else Map.get k' m.
Proof.
  induction m as [|[k0 v0] m IH]; simpl.
  - repeat case_decide; congruence.
  - repeat (case_decide; simpl); congruence.
Qed.

Lemma get_delete m k k' :
  Map.get k' (Map.delete k m) = if decide (k = k') then None else Map.get k' m.
Proof.
  induction m as [|[k0 v0] m IH]; simpl.
  - by case_decide.
  - repeat (case_decide; simpl); congruence.
Qed.

Lemma set_absent m k v : Map.get k m = None → Map.set k v m = m ++ [(k, v)].
Proof.
  induction m as [|[k0 v0] m IH]; simpl; [done|].
  case_decide; [done|]. intros ?. f_equal. by apply IH.
Qed.

Lemma keys_set_present m k v :
  is_Some (Map.get k m) → Map.keys (Map.set k v m) = Map.keys m.
Proof.
  unfold Map.keys. induction m as [|[k0 v0] m IH]; simpl.
  - by intros [? ?].
  - case_decide; simpl; [by subst|]. intros ?. f_equal. by apply IH.
Qed.

Lemma delete_absent m k : k ∉ Map.keys m → Map.delete k m = m.
Proof.
  unfold Map.keys. induction m as [|[k0 v0] m IH]; simpl; [done|].
  intros [? ?]%not_elem_of_cons. rewrite decide_False by done.
  f_equal. by apply IH.
Qed.

Lemma delete_filter m k : Map.delete k m = filter (λ kv, kv.1 ≠ k) m.
Proof.
  induction m as [|[k0 v0] m IH]; simpl; [done|]. rewrite filter_cons. simpl.
  case_decide; [by rewrite decide_False by tauto|].
  rewrite decide_True by done. by f_equal.
Qed.

Lemma keys_delete m k : Map.keys (Map.delete k m) = filter (λ k', k' ≠ k) (Map.keys m).
Proof.
  unfold Map.keys. induction m as [|[k0 v0] m IH]; simpl; [done|].
  rewrite filter_cons. simpl. case_decide.
  - by rewrite decide_False by tauto.
  - rewrite decide_True by done. simpl. by f_equal.
Qed.

Lemma NoDup_keys_delete m k :
  NoDup (Map.keys m) → NoDup (Map.keys (Map.delete k m)).
Proof. rewrite keys_delete. apply NoDup_filter. Qed.

Lemma NoDup_keys_set m k v :
  NoDup (Map.keys m) → NoDup (Map.keys (Map.set k v m)).
Proof.
  intros Hnd. destruct (Map.get k m) as [v0|] eqn:Hg.
  - by rewrite keys_set_present.
  - rewrite set_absent by done. unfold Map.keys. rewrite fmap_app. simpl.
    apply NoDup_app. split; [done|]. split; [|apply NoDup_singleton].
    intros x Hx ->%list_elem_of_singleton. by apply get_None in Hg.
Qed.

Lemma delete_middle m1 m2 k v :
  NoDup (Map.keys (m1 ++ (k, v) :: m2)) →
  Map.delete k (m1 ++ (k, v) :: m2) = m1 ++ m2.
Proof.
  unfold Map.keys. rewrite fmap_app. simpl.
  intros (_ & Hdisj & [Hk _]%NoDup_cons)%NoDup_app.
  rewrite !delete_filter, filter_app, filter_cons. simpl.
  rewrite decide_False by tauto.
  rewrite <-!delete_filter, !delete_absent; [done|done|].
  intros Hk1. apply (Hdisj _ Hk1), list_elem_of_here.
Qed.
End map_facts.

(** ** Byte accounting *)

Section size_facts.
Implicit Types (m : list (string * CacheEntry)) (k : string) (e : CacheEntry).

Lemma total_size_app m1 m2 :
  total_size (m1 ++ m2) = total_size m1 + total_size m2.
Proof. induction m1 as [|[k e] m1 IH]; simpl; lia. Qed.

Lemma total_size_delete m k e :
  NoDup (Map.keys m) → Map.get k m = Some e →
  total_size (Map.delete k m) = total_size m - size e.
Proof.
  intros Hnd Hg. apply get_Some_elem, list_elem_of_split in Hg as (m1 & m2 & ->).
  rewrite delete_middle by done. rewrite !total_size_app. simpl. lia.
Qed.

Lemma total_size_set m k e :
  total_size (Map.set k e m)
  = total_size m + size e - from_option size 0 (Map.get k m).
Proof.
  induction m as [|[k0 e0] m IH]; simpl; [lia|].
  case_decide; simpl; lia.
Qed.

Lemma total_size_nonneg m :
  (∀ k e, (k, e) ∈ m → 0 ≤ size e) → 0 ≤ total_size m.
Proof.
  induction m as [|[k e] m IH]; simpl; [lia|]. intros Hs.
  specialize (Hs k e (list_elem_of_here _ _)) as Hs0.
  assert (0 ≤ total_size m); [|lia].
  apply IH. intros k' e' Hin. apply (Hs k'). by apply list_elem_of_further.
Qed.

Lemma total_size_ge m k e :
  (∀ k e, (k, e) ∈ m → 0 ≤ size e) → (k, e) ∈ m → size e ≤ total_size m.
Proof.
  intros Hs (m1 & m2 & ->)%list_elem_of_split.
  rewrite total_size_app. simpl.
  assert (0 ≤ total_size m1).
  { apply total_size_nonneg. intros k' e' Hin. apply (Hs k').
    apply elem_of_app. by left. }
  assert (0 ≤ total_size m2); [|lia].
  apply total_size_nonneg. intros k' e' Hin. apply (Hs k').
  apply elem_of_app. right. by apply list_elem_of_further.
Qed.
End size_facts.

(** ** Keys *)

Section key_facts.
Implicit Types (ns key k : string).

Lemma append_inj_r (s t1 t2 : string) : s +:+ t1 = s +:+ t2 → t1 = t2.
Proof. induction s as [|ch s IH]; simpl; [done|]. intros [= ?]. by apply IH. Qed.

(** Inside one namespace distinct keys have distinct lookup identities. *)
Lemma makeFullKey_inj_key ns k1 k2 :
  makeFullKey ns k1 = makeFullKey ns k2 → k1 = k2.
Proof. unfold makeFullKey. by intros ?%append_inj_r%append_inj_r. Qed.

Lemma has_separator_cons ch s :
  has_separator (String ch s) = false → ch ≠ ":"%char ∧ has_separator s = false.
Proof.
  simpl. intros [Hc Hs]%orb_false_iff. split; [|done].
  by apply bool_decide_eq_false in Hc.
Qed.

(** Across namespaces without the separator the lookup identity is
    injective. *)
Lemma makeFullKey_inj ns1 k1 ns2 k2 :
  has_separator ns1 = false → has_separator ns2 = false →
  makeFullKey ns1 k1 = makeFullKey ns2 k2 → ns1 = ns2 ∧ k1 = k2.
Proof.
  unfold makeFullKey. revert ns2.
  induction ns1 as [|c1 ns1 IH]; intros [|c2 ns2] H1 H2; simpl.
  - intros [= ?]. by subst.
  - apply has_separator_cons in H2 as [Hc _]. intros [= ? _]. by subst.
  - apply has_separator_cons in H1 as [Hc _]. intros [= ? _]. by subst.
  - apply has_separator_cons in H1 as [_ H1].
    apply has_separator_cons in H2 as [_ H2].
    intros [= ? Heq]. destruct (IH ns2 H1 H2 Heq). by subst.
Qed.

Lemma prefix_cons (a b : ascii) (s1 s2 : string) :
  String.prefix (String a s1) (String b s2)
  = if ascii_dec a b then String.prefix s1 s2 else false.
Proof. done. Qed.

Lemma prefix_nil (s : string) : String.prefix "" s = true.
Proof. by destruct s. Qed.

(** The test of [clearNamespace] holds for the keys of the namespace. *)
Lemma in_namespace_same ns key e : in_namespace ns (makeFullKey ns key) e = true.
Proof.
  unfold in_namespace, makeFullKey.
  induction ns as [|ch ns IH].
  - change (String.prefix (String ":" "") (String ":" key) = true).
    rewrite prefix_cons. destruct (ascii_dec _ _); [apply prefix_nil|done].
  - change (String.prefix (String ch (ns +:+ ":"))
                          (String ch (ns +:+ ":" +:+ key)) = true).
    rewrite prefix_cons. by destruct (ascii_dec _ _).
Qed.

End key_facts.

(** ** The engine keeps its invariant *)

Section cache_facts.
Import Heap LRUList.
Implicit Types (c : InMemoryCache) (l : list ptr) (k : string) (e : CacheEntry).

(** *** Lists *)

Lemma elem_of_middle (l1 l2 : list ptr) p x :
  x ∈ l1 ++ p :: l2 ↔ x = p ∨ x ∈ l1 ++ l2.
Proof. rewrite !elem_of_app, elem_of_cons. tauto. Qed.

Lemma NoDup_middle (l1 l2 : list ptr) p :
  NoDup (l1 ++ p :: l2) → p ∉ l1 ++ l2.
Proof.
  intros (_ & Hdisj & [Hp _]%NoDup_cons)%NoDup_app [Hx|Hx]%elem_of_app; [|done].
  apply (Hdisj _ Hx), list_elem_of_here.
Qed.

Lemma filter_all {A} (P : A → Prop) `{∀ x, Decision (P x)} (l : list A) :
  (∀ x, x ∈ l → P x) → filter P l = l.
Proof.
  induction l as [|x l IH]; [done|]. intros HP.
  rewrite filter_cons, decide_True by apply HP, list_elem_of_here.
  f_equal. apply IH. intros y Hy. by apply HP, list_elem_of_further.
Qed.

Lemma filter_ne_middle (l1 l2 : list ptr) p :
  NoDup (l1 ++ p :: l2) → filter (λ x, x ≠ p) (l1 ++ p :: l2) = l1 ++ l2.
Proof.
  intros Hnd. pose proof (NoDup_middle _ _ _ Hnd) as Hp.
  rewrite filter_app, filter_cons, decide_False by tauto.
  rewrite <-filter_app. apply filter_all.
  intros x Hx ->. by apply Hp.
Qed.

Lemma fmap_filter_ne {A B} `{EqDecision A, EqDecision B}
    (f : A → B) (l : list A) (p : A) (k : B) :
  (∀ x, x ∈ l → f x = k ↔ x = p) →
  f <$> filter (λ x, x ≠ p) l = filter (λ y, y ≠ k) (f <$> l).
Proof.
  induction l as [|x l IH]; [done|]. intros Hf.
  rewrite fmap_cons, !filter_cons.
  pose proof (Hf x (list_elem_of_here _ _)) as Hx.
  assert (IH' : f <$> filter (λ x, x ≠ p) l = filter (λ y, y ≠ k) (f <$> l)).
  { apply IH. intros y Hy. by apply Hf, list_elem_of_further. }
  destruct (decide (x = p)) as [->|Hne].
  - rewrite decide_False by (intros Hn; by apply Hn).
    rewrite decide_False by (intros Hn; apply Hn; by apply Hx). done.
  - rewrite decide_True by done.
    rewrite decide_True by (intros Hk; by apply Hx in Hk).
    by rewrite fmap_cons, IH'.
Qed.

Lemma delete_present_length (m : list (string * CacheEntry)) k e :
  NoDup (Map.keys m) → Map.get k m = Some e →
  length m = S (length (Map.delete k m)).
Proof.
  intros Hnd (m1 & m2 & ->)%get_Some_elem%list_elem_of_split.
  rewrite delete_middle by done. rewrite !length_app. simpl. lia.
Qed.

(** *** What the invariant says about the observable state *)

Lemma rep_entry_size c l k e :
  cache_rep c l → (k, e) ∈ store c → 0 ≤ size e.
Proof.
  intros Hrep Hin. apply elem_get in Hin; [|apply Hrep].
  rewrite (rep_size _ _ Hrep _ _ Hin). lia.
Qed.

Lemma new_rep maxBytes : cache_rep (new maxBytes) [].
Proof.
  constructor; simpl; try done.
  - apply dll_empty.
  - apply NoDup_nil_2.
  - by intros p ?%elem_of_nil.
Qed.

Lemma store_nil_rep c : cache_rep c [] → store c = [] ∧ lru c = LRUList.empty.
Proof.
  intros Hrep. split; [|by apply (dll_nil_inv (heap c)), Hrep].
  destruct (store c) as [|[k e] m] eqn:Hs; [done|].
  destruct (rep_entry _ _ Hrep k e) as [?%elem_of_nil _]; [|done].
  rewrite Hs. simpl. by rewrite decide_True.
Qed.

Lemma rep_key_inj c l p1 p2 :
  cache_rep c l → p1 ∈ l → p2 ∈ l →
  key_of (heap c) p1 = key_of (heap c) p2 → p1 = p2.
Proof.
  intros Hrep H1 H2 Hk.
  destruct (rep_node _ _ Hrep _ H1) as (e1 & Hg1 & <-).
  destruct (rep_node _ _ Hrep _ H2) as (e2 & Hg2 & <-).
  rewrite Hk in Hg1. congruence.
Qed.

Lemma rep_key_node c l k e x :
  cache_rep c l → Map.get k (store c) = Some e → x ∈ l →
  key_of (heap c) x = k ↔ x = lruNode e.
Proof.
  intros Hrep Hg Hx. destruct (rep_entry _ _ Hrep _ _ Hg) as [Hin Hk].
  split; [|by intros ->]. intros Hkx.
  apply (rep_key_inj _ _ _ _ Hrep); [done|done|congruence].
Qed.

Lemma lru_keys_empty c : lru c = LRUList.empty → lru_keys c = [].
Proof.
  intros Hq. unfold lru_keys, LRUList.keys, nodes. rewrite Hq. simpl.
  by destruct (length (heap c)).
Qed.

Lemma lru_keys_rep c l : cache_rep c l → lru_keys c = key_of (heap c) <$> l.
Proof.
  intros Hrep. unfold lru_keys, LRUList.keys.
  by rewrite (dll_nodes _ _ _ (rep_dll _ _ Hrep)).
Qed.

Lemma lru_keys_NoDup c : cache_inv c → NoDup (lru_keys c).
Proof.
  intros [l Hrep]. rewrite (lru_keys_rep _ _ Hrep).
  apply NoDup_fmap_2_strong; [|apply (rep_dll _ _ Hrep)].
  intros p1 p2. apply (rep_key_inj _ _ _ _ Hrep).
Qed.

Lemma lru_keys_elem c k :
  cache_inv c → k ∈ lru_keys c ↔ k ∈ Map.keys (store c).
Proof.
  intros [l Hrep]. rewrite (lru_keys_rep _ _ Hrep), list_elem_of_fmap. split.
  - intros (p & -> & Hp).
    destruct (rep_node _ _ Hrep _ Hp) as (e & Hg & _).
    by apply get_Some_key in Hg.
  - intros Hk. destruct (Map.get k (store c)) as [e|] eqn:Hg.
    + destruct (rep_entry _ _ Hrep _ _ Hg) as [Hin Hke]. eauto.
    + by apply get_None in Hg.
Qed.

Lemma lru_keys_perm c : cache_inv c → lru_keys c ≡ₚ Map.keys (store c).
Proof.
  intros Hc. apply NoDup_Permutation.
  - by apply lru_keys_NoDup.
  - destruct Hc as [l Hrep]. apply Hrep.
  - intros k. by apply lru_keys_elem.
Qed.

Lemma inv_consistent c : cache_inv c → consistent c.
Proof.
  intros Hc. split; [|by apply lru_keys_perm].
  destruct Hc as [l Hrep]. apply Hrep.
Qed.

(** *** Removing an entry *)

Lemma remove_entry_store k e c :
  store (remove_entry k e c) = Map.delete k (store c).
Proof. unfold remove_entry. by destruct (detach _ _ _). Qed.

Lemma remove_entry_maxBytes k e c : maxBytes (remove_entry k e c) = maxBytes c.
Proof. unfold remove_entry. by destruct (detach _ _ _). Qed.

Lemma remove_entry_usedBytes k e c :
  usedBytes (remove_entry k e c) = usedBytes c - size e.
Proof. unfold remove_entry. by destruct (detach _ _ _). Qed.

Lemma remove_entry_key k e c x :
  key_of (heap (remove_entry k e c)) x = key_of (heap c) x.
Proof.
  unfold remove_entry, key_of.
  pose proof (detach_key (lruNode e) (heap c) (lru c) x) as Hk.
  by destruct (detach _ _ _).
Qed.

(** The removal path of [delete], [clearNamespace] and [sweepExpired]. *)
Lemma remove_entry_rep c l1 l2 k e :
  cache_rep c (l1 ++ lruNode e :: l2) → Map.get k (store c) = Some e →
  cache_rep (remove_entry k e c) (l1 ++ l2).
Proof.
  intros Hrep Hg. unfold remove_entry.
  pose proof (detach_spec _ _ _ _ _ (rep_dll _ _ Hrep)) as [Hd _].
  pose proof (detach_key (lruNode e) (heap c) (lru c)) as Hk.
  pose proof (NoDup_middle _ _ _ (proj1 (rep_dll _ _ Hrep))) as Hp.
  destruct (rep_entry _ _ Hrep _ _ Hg) as [_ Hke].
  destruct (detach (lruNode e) (heap c) (lru c)) as [h' q']; simpl in *.
  constructor; simpl.
  - done.
  - apply NoDup_keys_delete, Hrep.
  - intros k' e'. rewrite get_delete. case_decide as Hkk; [done|]. intros Hg'.
    destruct (rep_entry _ _ Hrep _ _ Hg') as [Hin Hk']. split.
    + apply elem_of_middle in Hin as [Heq|Hin]; [|done].
      rewrite Heq in Hk'. congruence.
    + unfold key_of in *. by rewrite Hk.
  - intros p Hin.
    destruct (rep_node _ _ Hrep p) as (e' & Hg' & He').
    { apply elem_of_middle. by right. }
    exists e'. split; [|done]. unfold key_of in *. rewrite Hk, get_delete.
    case_decide as Hkk; [|done].
    rewrite <-Hkk, Hg in Hg'. injection Hg' as <-. by subst p.
  - rewrite (total_size_delete _ _ e); [|apply Hrep|done].
    by rewrite (rep_used _ _ Hrep).
  - intros k' e'. rewrite get_delete. case_decide; [done|]. apply Hrep.
Qed.

Lemma remove_entry_inv c k e :
  cache_inv c → Map.get k (store c) = Some e → cache_inv (remove_entry k e c).
Proof.
  intros [l Hrep] Hg.
  destruct (rep_entry _ _ Hrep _ _ Hg) as [(l1 & l2 & ->)%list_elem_of_split _].
  exists (l1 ++ l2). by apply remove_entry_rep.
Qed.

Lemma remove_entry_rep_filter c l k e :
  cache_rep c l → Map.get k (store c) = Some e →
  cache_rep (remove_entry k e c) (filter (λ x, x ≠ lruNode e) l).
Proof.
  intros Hrep Hg.
  destruct (rep_entry _ _ Hrep _ _ Hg) as [(l1 & l2 & ->)%list_elem_of_split _].
  rewrite filter_ne_middle by apply (rep_dll _ _ Hrep).
  by apply remove_entry_rep.
Qed.

Lemma remove_entry_lru_keys c k e :
  cache_inv c → Map.get k (store c) = Some e →
  lru_keys (remove_entry k e c) = filter (λ k', k' ≠ k) (lru_keys c).
Proof.
  intros [l Hrep] Hg.
  rewrite (lru_keys_rep _ _ (remove_entry_rep_filter _ _ _ _ Hrep Hg)).
  rewrite (lru_keys_rep _ _ Hrep).
  rewrite <-(fmap_filter_ne _ _ (lruNode e)).
  - apply list_fmap_ext. intros i x _. apply remove_entry_key.
  - intros x Hx. by apply (rep_key_node _ _ _ _ _ Hrep).
Qed.

(** *** Promoting an entry *)

(** A hit of [get]: the node of the entry is moved to the front. *)
Lemma promote_rep c l k e :
  cache_rep c l → Map.get k (store c) = Some e →
  cache_rep
    (mkCache (store c) (moveToFront (lruNode e) (heap c) (lru c)).1
             (moveToFront (lruNode e) (heap c) (lru c)).2
             (maxBytes c) (usedBytes c))
    (lruNode e :: filter (λ x, x ≠ lruNode e) l).
Proof.
  intros Hrep Hg.
  destruct (rep_entry _ _ Hrep _ _ Hg) as [(l1 & l2 & ->)%list_elem_of_split _].
  rewrite filter_ne_middle by apply (rep_dll _ _ Hrep).
  pose proof (moveToFront_spec _ _ _ _ _ (rep_dll _ _ Hrep)) as Hd.
  pose proof (moveToFront_key (lruNode e) (heap c) (lru c)) as Hk.
  destruct (moveToFront (lruNode e) (heap c) (lru c)) as [h' q'];
    cbn [fst snd] in *.
  constructor; simpl; try apply Hrep; [done| |].
  - intros k' e' Hg'. destruct (rep_entry _ _ Hrep _ _ Hg') as [Hin Hk'].
    unfold key_of in *. rewrite Hk. split; [|done].
    apply elem_of_cons. by apply elem_of_middle.
  - intros p Hin. unfold key_of. rewrite Hk. apply (rep_node _ _ Hrep).
    apply elem_of_middle. by apply elem_of_cons.
Qed.

Lemma promote_lru_keys c k e :
  cache_inv c → Map.get k (store c) = Some e →
  lru_keys
    (mkCache (store c) (moveToFront (lruNode e) (heap c) (lru c)).1
             (moveToFront (lruNode e) (heap c) (lru c)).2
             (maxBytes c) (usedBytes c))
  = k :: filter (λ k', k' ≠ k) (lru_keys c).
Proof.
  intros [l Hrep] Hg.
  rewrite (lru_keys_rep _ _ (promote_rep _ _ _ _ Hrep Hg)).
  rewrite (lru_keys_rep _ _ Hrep). cbn [heap].
  assert (Hk : ∀ x, key_of (moveToFront (lruNode e) (heap c) (lru c)).1 x
                    = key_of (heap c) x).
  { intros x. apply moveToFront_key. }
  rewrite fmap_cons, Hk. f_equal.
  - by apply (rep_entry _ _ Hrep).
  - rewrite <-(fmap_filter_ne _ _ (lruNode e)).
    + apply list_fmap_ext. intros i x _. apply Hk.
    + intros x Hx. by apply (rep_key_node _ _ _ _ _ Hrep).
Qed.

(** *** Writing an entry *)

(** The first half of [set]: the entry is written and becomes the head
    of the recency list. *)
Lemma set_entry_rep now ns key v opts c l :
  cache_rep c l →
  ∃ p e, written now (makeFullKey ns key) v opts c
           (set_entry now ns key v opts c) l p e.
Proof.
  intros Hrep. unfold set_entry.
  set (fk := makeFullKey ns key). set (buf := normalize v).
  set (exp := if 0 <? default 0 (ttlMs opts) then _ else _).
  destruct (Map.get fk (store c)) as [e0|] eqn:Hg.
  - (* the key is present: the entry is rewritten and its node promoted *)
    destruct (rep_entry _ _ Hrep _ _ Hg) as [Hin Hk0].
    assert (Hold : ∀ x, x ∈ l → key_of (heap c) x = fk ↔ x = lruNode e0).
    { intros x Hx. split; [|by intros ->]. intros Hkx.
      apply (rep_key_inj _ _ _ _ Hrep); [done|done|congruence]. }
    apply list_elem_of_split in Hin as (l1 & l2 & ->).
    pose proof (moveToFront_spec _ _ _ _ _ (rep_dll _ _ Hrep)) as Hd.
    pose proof (moveToFront_key (lruNode e0) (heap c) (lru c)) as Hk.
    pose proof (NoDup_middle _ _ _ (proj1 (rep_dll _ _ Hrep))) as Hp.
    pose proof (filter_ne_middle _ _ _ (proj1 (rep_dll _ _ Hrep))) as Hfl.
    destruct (moveToFront (lruNode e0) (heap c) (lru c)) as [h' q'];
      cbn [fst snd] in *.
    exists (lruNode e0), (mkEntry buf exp (lruNode e0) (Z.of_nat (length buf))).
    constructor; try done; simpl.
    + rewrite Hfl. constructor; simpl.
      * done.
      * apply NoDup_keys_set, Hrep.
      * intros k' e'. rewrite get_set. case_decide as Hkk.
        -- intros [= <-]. simpl. split; [apply list_elem_of_here|].
           unfold key_of in *. rewrite Hk. congruence.
        -- intros Hg'. destruct (rep_entry _ _ Hrep _ _ Hg') as [Hin Hk'].
           unfold key_of in *. rewrite Hk. split; [|done].
           apply elem_of_cons. by apply elem_of_middle.
      * intros p Hin. unfold key_of in *. rewrite Hk, get_set.
        destruct (rep_node _ _ Hrep p) as (e' & Hg' & He').
        { apply elem_of_middle. by apply elem_of_cons. }
        unfold key_of in *. case_decide as Hkk; [|eauto].
        eexists. split; [done|]. simpl. congruence.
      * rewrite total_size_set, Hg. simpl. rewrite (rep_used _ _ Hrep). lia.
      * intros k' e'. rewrite get_set. case_decide; [by intros [= <-]|].
        apply Hrep.
    + intros x _. apply Hk.
  - (* a new key: a node is allocated and pushed in front *)
    unfold alloc. cbv beta iota zeta.
    set (node := length (heap c)).
    set (h1 := heap c ++ [mkNode fk None None]).
    assert (Hold : ∀ x, x ∈ l → h1 !! x = heap c !! x ∧ x ≠ node).
    { intros x Hx.
      destruct (seg_lookup _ _ _ _ _ (proj2 (proj2 (proj2 (rep_dll _ _ Hrep)))) Hx)
        as [nd E].
      pose proof (lookup_lt_Some _ _ _ E). subst h1 node.
      rewrite lookup_app_l by done. split; [done|lia]. }
    assert (Hnode : h1 !! node = Some (mkNode fk None None))
      by by apply list_lookup_middle.
    assert (Hd1 : dll h1 (lru c) l).
    { destruct (rep_dll _ _ Hrep) as (? & ? & ? & Hs). repeat split; try done.
      eapply seg_frame; [|done]. intros x Hx. by apply Hold. }
    assert (Hfresh : node ∉ l) by (intros Hx; by apply Hold in Hx as [_ ?]).
    pose proof (pushFront_spec _ _ _ _ Hd1 Hfresh (mk_is_Some _ _ Hnode)) as Hd.
    pose proof (pushFront_key node h1 (lru c)) as Hk.
    pose proof (filter_all (λ x, x ≠ node) l) as Hfl.
    destruct (pushFront node h1 (lru c)) as [h' q']; cbn [fst snd] in *.
    assert (Hkold : ∀ x, x ∈ l → key_of h' x = key_of (heap c) x).
    { intros x Hx. unfold key_of, deref in *. rewrite Hk.
      by destruct (Hold x Hx) as [-> _]. }
    assert (Hknew : key_of h' node = fk).
    { unfold key_of, deref in *. by rewrite Hk, Hnode. }
    exists node, (mkEntry buf exp node (Z.of_nat (length buf))).
    constructor; try done; simpl.
    + rewrite Hfl by (by intros x Hx ->). constructor; simpl.
      * done.
      * apply NoDup_keys_set, Hrep.
      * intros k' e'. rewrite get_set. case_decide as Hkk.
        -- intros [= <-]. simpl. split; [apply list_elem_of_here|congruence].
        -- intros Hg'. destruct (rep_entry _ _ Hrep _ _ Hg') as [Hin Hk'].
           rewrite Hkold by done. split; [|done]. by apply list_elem_of_further.
      * intros p [->|Hin]%elem_of_cons.
        -- rewrite Hknew, get_set, decide_True by done. eauto.
        -- rewrite Hkold, get_set by done.
           destruct (rep_node _ _ Hrep p Hin) as (e' & Hg' & He').
           rewrite decide_False by congruence. eauto.
      * rewrite total_size_set, Hg. simpl. rewrite (rep_used _ _ Hrep). lia.
      * intros k' e'. rewrite get_set. case_decide; [by intros [= <-]|].
        apply Hrep.
    + intros x Hx. split.
      * intros Hkx. destruct (rep_node _ _ Hrep x Hx) as (e' & Hg' & _).
        congruence.
      * intros ->. done.
Qed.

Lemma written_get now fk v opts c c' l p e :
  written now fk v opts c c' l p e → Map.get fk (store c') = Some e.
Proof. intros Hw. by rewrite (wr_store _ _ _ _ _ _ _ _ _ Hw), get_set, decide_True. Qed.

Lemma set_entry_inv now ns key v opts c :
  cache_inv c → cache_inv (set_entry now ns key v opts c).
Proof.
  intros [l Hrep].
  destruct (set_entry_rep now ns key v opts c l Hrep) as (p & e & Hw).
  eexists. apply Hw.
Qed.

Lemma set_entry_lru_keys now ns key v opts c :
  cache_inv c →
  lru_keys (set_entry now ns key v opts c)
  = makeFullKey ns key
    :: filter (λ k, k ≠ makeFullKey ns key) (lru_keys c).
Proof.
  intros [l Hrep].
  destruct (set_entry_rep now ns key v opts c l Hrep) as (p & e & Hw).
  pose proof (written_get _ _ _ _ _ _ _ _ _ Hw) as Hg.
  destruct Hw as [Hrep' _ He _ _ _ Hkey Hold].
  rewrite (lru_keys_rep _ _ Hrep'), (lru_keys_rep _ _ Hrep), fmap_cons.
  f_equal.
  - destruct (rep_entry _ _ Hrep' _ _ Hg) as [_ Hk]. by rewrite <-He.
  - rewrite <-(fmap_filter_ne _ _ p) by done.
    apply list_fmap_ext. intros i x Hx%list_elem_of_lookup_2.
    apply Hkey. by apply list_elem_of_filter in Hx as [_ ?].
Qed.

(** *** Budget enforcement *)

Lemma evict_loop_unfold fuel c :
  evict_loop (S fuel) c =
  if usedBytes c >? maxBytes c then
    match popBack (heap c) (lru c) with
    | (None, _) => Some c
    | (Some victim, (h, q)) =>
        let k := fullKey (deref h victim) in
        match Map.get k (store c) with
        | None =>
            evict_loop fuel (mkCache (store c) h q (maxBytes c) (usedBytes c))
        | Some entry =>
            evict_loop fuel
              (mkCache (Map.delete k (store c)) h q (maxBytes c)
                       (usedBytes c - size entry))
        end
    end
  else Some c.
Proof. done. Qed.

Lemma evict_loop_within fuel c :
  usedBytes c ≤ maxBytes c → evict_loop fuel c = Some c.
Proof.
  intros Hle. assert ((usedBytes c >? maxBytes c) = false) as Hb by lia.
  destruct fuel; simpl; by rewrite Hb.
Qed.

Lemma evictUntilWithinBudget_within c :
  usedBytes c ≤ maxBytes c → evictUntilWithinBudget c = c.
Proof.
  intros Hle. unfold evictUntilWithinBudget. by rewrite evict_loop_within.
Qed.

(** More fuel does not change a result. *)
Lemma evict_loop_mono fuel c c' :
  evict_loop fuel c = Some c' → evict_loop (S fuel) c = Some c'.
Proof.
  revert c. induction fuel as [|fuel IH]; intros c.
  - simpl. by destruct (usedBytes c >? maxBytes c).
  - rewrite (evict_loop_unfold (S fuel)), (evict_loop_unfold fuel).
    destruct (usedBytes c >? maxBytes c); [|done].
    destruct (popBack (heap c) (lru c)) as [[victim|] [h q]]; [|done].
    simpl. destruct (Map.get _ (store c)); apply IH.
Qed.

Lemma evict_loop_more fuel fuel' c c' :
  (fuel ≤ fuel')%nat → evict_loop fuel c = Some c' → evict_loop fuel' c = Some c'.
Proof. induction 1; [done|]. intros ?. by apply evict_loop_mono, IHle. Qed.

(** One iteration of the loop removes the entry of the tail node. *)
Lemma evict_loop_step fuel c l p :
  cache_rep c (l ++ [p]) → usedBytes c > maxBytes c →
  ∃ e, Map.get (key_of (heap c) p) (store c) = Some e ∧ lruNode e = p
       ∧ evict_loop (S fuel) c
         = evict_loop fuel (remove_entry (key_of (heap c) p) e c).
Proof.
  intros Hrep Hgt.
  destruct (rep_node _ _ Hrep p) as (e & Hg & He).
  { apply elem_of_app. right. apply list_elem_of_here. }
  exists e. split; [done|]. split; [done|].
  rewrite evict_loop_unfold.
  assert ((usedBytes c >? maxBytes c) = true) as -> by lia.
  rewrite (popBack_snoc _ _ _ _ (rep_dll _ _ Hrep)).
  unfold remove_entry. rewrite He.
  pose proof (detach_key p (heap c) (lru c) p) as Hk.
  destruct (detach p (heap c) (lru c)) as [h' q']; cbn [fst snd] in *.
  cbv zeta. unfold key_of in *. by rewrite Hk, Hg.
Qed.

Lemma eviction_refl c l : cache_rep c l → (usedBytes c ≤ maxBytes c ∨ l = []) →
  eviction c c l l [].
Proof.
  intros Hrep Hfin. constructor; try done.
  - by rewrite app_nil_r.
  - intros k e. split; [|tauto]. intros Hg. split; [done|].
    by apply (rep_entry _ _ Hrep) in Hg as [? _].
Qed.

Lemma evict_loop_rep fuel c l :
  cache_rep c l → (length l < fuel)%nat →
  ∃ c' l1 l2, evict_loop fuel c = Some c' ∧ eviction c c' l l1 l2.
Proof.
  revert c l. induction fuel as [|fuel IH]; intros c l Hrep Hlen; [lia|].
  destruct (decide (usedBytes c ≤ maxBytes c)) as [Hle|Hgt].
  { exists c, l, []. rewrite evict_loop_within by done.
    split; [done|]. apply eviction_refl; [done|by left]. }
  destruct l as [|p l _] using rev_ind.
  { exists c, [], []. rewrite evict_loop_unfold.
    assert ((usedBytes c >? maxBytes c) = true) as -> by lia.
    rewrite (popBack_nil _ _ (rep_dll _ _ Hrep)).
    split; [done|]. apply eviction_refl; [done|by right]. }
  destruct (evict_loop_step fuel c l p Hrep) as (e & Hg & He & ->); [lia|].
  set (k := key_of (heap c) p) in *. set (c1 := remove_entry k e c).
  assert (Hrep' : cache_rep c1 l).
  { rewrite <-(app_nil_r l). apply remove_entry_rep; [by rewrite He|done]. }
  rewrite length_app in Hlen. simpl in Hlen.
  destruct (IH _ l Hrep') as (c' & l1 & l2 & Hev & Hevn); [lia|].
  destruct Hevn as [-> Hrep1 Hmax Hfin Hst Hkey Hnone Hover].
  assert (Hpl : p ∉ l1 ++ l2).
  { rewrite <-(app_nil_r (l1 ++ l2)). apply NoDup_middle, (rep_dll _ _ Hrep). }
  exists c', l1, (l2 ++ [p]). split; [done|].
  subst c1. rewrite remove_entry_maxBytes in *.
  rewrite remove_entry_store in *.
  constructor; try done.
  - by rewrite app_assoc.
  - intros k' e'. rewrite Hst, get_delete. case_decide as Hkk; [|tauto].
    split; [by intros [? _]|]. intros [Hg' Hin]. exfalso.
    rewrite <-Hkk, Hg in Hg'. injection Hg' as <-.
    apply Hpl. rewrite <-He. apply elem_of_app. by left.
  - intros x. by rewrite Hkey, remove_entry_key.
  - by intros [_ ?]%app_eq_nil.
  - intros x l2' e' Hl2 Hg'. destruct l2 as [|y l2].
    + injection Hl2 as <- <-. rewrite Hnone by done.
      rewrite remove_entry_usedBytes. fold k in Hg'.
      rewrite Hg in Hg'. injection Hg' as <-. lia.
    + injection Hl2 as <- <-. apply (Hover y l2); [done|].
      rewrite remove_entry_key, get_delete, decide_False; [done|].
      intros Hk. apply Hpl. apply elem_of_app. right.
      assert (p = y) as ->; [|apply list_elem_of_here].
      apply (rep_key_inj _ _ _ _ Hrep); [| |done].
      * apply elem_of_app. right. apply list_elem_of_here.
      * apply elem_of_app. left. apply elem_of_app. right.
        apply list_elem_of_here.
Qed.

Lemma evictUntilWithinBudget_rep c l :
  cache_rep c l →
  ∃ l1 l2,
    (∀ fuel, (length l < fuel)%nat →
       evict_loop fuel c = Some (evictUntilWithinBudget c))
    ∧ eviction c (evictUntilWithinBudget c) l l1 l2.
Proof.
  intros Hrep. pose proof (dll_length _ _ _ (rep_dll _ _ Hrep)) as Hlen.
  destruct (evict_loop_rep (S (length l)) c l Hrep)
    as (c' & l1 & l2 & Hev & Hevn); [lia|].
  assert (evictUntilWithinBudget c = c') as ->.
  { unfold evictUntilWithinBudget.
    by rewrite (evict_loop_more (S (length l)) _ c c') by (done || lia). }
  exists l1, l2. split; [|done].
  intros fuel Hf. apply (evict_loop_more (S (length l))); [lia|done].
Qed.

Lemma evictUntilWithinBudget_inv c :
  cache_inv c → cache_inv (evictUntilWithinBudget c).
Proof.
  intros [l Hrep].
  destruct (evictUntilWithinBudget_rep c l Hrep) as (l1 & l2 & _ & Hev).
  exists l1. apply Hev.
Qed.


Lemma evictUntilWithinBudget_final c :
  cache_inv c →
  let c' := evictUntilWithinBudget c in
  maxBytes c' = maxBytes c
  ∧ (usedBytes c' ≤ maxBytes c' ∨ (store c' = [] ∧ lru c' = LRUList.empty)).
Proof.
  intros [l Hrep].
  destruct (evictUntilWithinBudget_rep _ _ Hrep)
    as (l1 & l2 & _ & [_ Hrep' Hmax Hfin _ _ _ _]).
  simpl. split; [done|]. rewrite Hmax.
  destruct Hfin as [?| ->]; [by left|right]. by apply store_nil_rep.
Qed.

(** Budget enforcement keeps the most recently used keys, in their order. *)
Lemma eviction_lru_keys c c' l l1 l2 :
  cache_rep c l → eviction c c' l l1 l2 →
  lru_keys c = lru_keys c' ++ (key_of (heap c) <$> l2).
Proof.
  intros Hrep [-> Hrep' _ _ _ Hkey _ _].
  rewrite (lru_keys_rep _ _ Hrep), (lru_keys_rep _ _ Hrep'), fmap_app.
  f_equal. apply list_fmap_ext. intros i x _. by rewrite Hkey.
Qed.

Lemma evict_oversized c p l k e :
  cache_rep c (p :: l) → Map.get k (store c) = Some e → lruNode e = p →
  size e > maxBytes c →
  store (evictUntilWithinBudget c) = []
  ∧ lru (evictUntilWithinBudget c) = LRUList.empty
  ∧ usedBytes (evictUntilWithinBudget c) = 0
  ∧ maxBytes (evictUntilWithinBudget c) = maxBytes c.
Proof.
  intros Hrep Hg He Hbig.
  destruct (evictUntilWithinBudget_rep _ _ Hrep)
    as (l1 & l2 & _ & [Hl Hrep' Hmax Hfin Hst _ _ _]).
  assert (l1 = []) as ->.
  { destruct Hfin as [Hle|]; [|done].
    destruct l1 as [|p' l1]; [done|]. exfalso. simplify_eq/=.
    assert (Hg' : Map.get k (store (evictUntilWithinBudget c)) = Some e).
    { apply Hst. split; [done|]. apply list_elem_of_here. }
    pose proof (total_size_ge (store (evictUntilWithinBudget c)) k e) as Hge.
    rewrite <-(rep_used _ _ Hrep') in Hge.
    assert (size e ≤ usedBytes (evictUntilWithinBudget c)); [|lia].
    apply Hge; [|by apply get_Some_elem].
    intros k' e'. apply (rep_entry_size _ _ _ _ Hrep'). }
  destruct (store_nil_rep _ Hrep') as [Hs Hq].
  rewrite Hs, Hq, (rep_used _ _ Hrep'), Hs. done.
Qed.


(** Over budget, the loop evicts the tail of the recency list. *)
Lemma evict_tail c l k e :
  cache_rep c l → usedBytes c > maxBytes c →
  Map.get k (store c) = Some e → last l = Some (lruNode e) →
  Map.get k (store (evictUntilWithinBudget c)) = None.
Proof.
  intros Hrep Hgt Hg Hlast.
  destruct (evictUntilWithinBudget_rep _ _ Hrep)
    as (l1 & l2 & _ & [-> Hrep' _ Hfin Hst _ Hnone _]).
  destruct (Map.get k (store (evictUntilWithinBudget c))) as [e'|] eqn:Hg';
    [exfalso|done].
  apply Hst in Hg' as [Hg' Hin]. rewrite Hg in Hg'. injection Hg' as <-.
  rewrite last_app in Hlast. destruct (last l2) as [x|] eqn:Hl2.
  - injection Hlast as ->. apply last_Some_elem_of in Hl2.
    destruct (rep_dll _ _ Hrep) as [(_ & Hdisj & _)%NoDup_app _].
    by apply (Hdisj (lruNode e)).
  - apply last_None in Hl2. rewrite Hnone in Hfin by done.
    destruct Hfin as [?| ->]; [lia|done].
Qed.
(** *** [set] *)

Lemma set_inv now ns key v opts c :
  cache_inv c → cache_inv (set now ns key v opts c).
Proof. intros Hc. by apply evictUntilWithinBudget_inv, set_entry_inv. Qed.

(** A value that fits the budget is not evicted by its own [set]. *)
Lemma set_fits_get now ns key v opts c :
  cache_inv c → byteLength v ≤ maxBytes c →
  ∃ e, Map.get (makeFullKey ns key) (store (set now ns key v opts c)) = Some e
       ∧ value e = normalize v
       ∧ expiresAt e = if 0 <? default 0 (ttlMs opts)
                       then (now + Z.to_N (default 0%Z (ttlMs opts)))%N else 0%N.
Proof.
  intros [l Hrep] Hfit. unfold set.
  destruct (set_entry_rep now ns key v opts c l Hrep) as (p & e & Hw).
  pose proof (written_get _ _ _ _ _ _ _ _ _ Hw) as Hg.
  destruct Hw as [Hrep' _ He Hv Hexp Hmax _ _].
  destruct (evictUntilWithinBudget_rep _ _ Hrep')
    as (l1 & l2 & _ & [Hl Hrep'' _ _ Hst _ _ Hover]).
  exists e. split; [|done]. apply Hst. split; [done|].
  destruct l1 as [|p' l1]; [exfalso|].
  - simpl in Hl. destruct (rep_entry _ _ Hrep' _ _ Hg) as [_ Hk].
    specialize (Hover p _ e (eq_sym Hl)). rewrite He in Hk.
    rewrite Hk in Hover. specialize (Hover Hg).
    destruct (store_nil_rep _ Hrep'') as [Hs _].
    rewrite (rep_used _ _ Hrep''), Hs in Hover. simpl in Hover.
    rewrite (rep_size _ _ Hrep' _ _ Hg), Hv, Hmax in Hover.
    unfold byteLength in Hfit. lia.
  - injection Hl as -> _. rewrite He. apply list_elem_of_here.
Qed.

(** *** [delete], [get] and [has] *)

Lemma expired_true now e :
  expired now e = true ↔ (expiresAt e ≠ 0 ∧ expiresAt e ≤ now)%N.
Proof. unfold expired. rewrite andb_true_iff, N.ltb_lt, N.leb_le. lia. Qed.

Lemma expired_false now e :
  expired now e = false ↔ (expiresAt e = 0 ∨ now < expiresAt e)%N.
Proof.
  unfold expired. rewrite andb_false_iff, N.ltb_ge, N.leb_gt. lia.
Qed.

Lemma delete_hit c ns key e :
  Map.get (makeFullKey ns key) (store c) = Some e →
  delete ns key c = (true, remove_entry (makeFullKey ns key) e c).
Proof. intros Hg. unfold delete. by rewrite Hg. Qed.

Lemma delete_inv ns key c : cache_inv c → cache_inv (delete ns key c).2.
Proof.
  intros Hc. unfold delete.
  destruct (Map.get _ (store c)) as [e|] eqn:Hg; [|done].
  by apply remove_entry_inv.
Qed.

Lemma get_miss c now ns key :
  Map.get (makeFullKey ns key) (store c) = None →
  get now ns key c = (None, c).
Proof. intros Hg. unfold get. by rewrite Hg. Qed.

Lemma get_expired c now ns key e :
  Map.get (makeFullKey ns key) (store c) = Some e → expired now e = true →
  get now ns key c = (None, remove_entry (makeFullKey ns key) e c).
Proof. intros Hg He. unfold get. by rewrite Hg, He, (delete_hit _ _ _ e). Qed.

Lemma get_hit c now ns key e :
  Map.get (makeFullKey ns key) (store c) = Some e → expired now e = false →
  get now ns key c
  = (Some (value e),
     mkCache (store c) (moveToFront (lruNode e) (heap c) (lru c)).1
             (moveToFront (lruNode e) (heap c) (lru c)).2
             (maxBytes c) (usedBytes c)).
Proof.
  intros Hg He. unfold get. rewrite Hg, He. by destruct (moveToFront _ _ _).
Qed.

Lemma get_inv now ns key c : cache_inv c → cache_inv (get now ns key c).2.
Proof.
  intros Hc. unfold get.
  destruct (Map.get _ (store c)) as [e|] eqn:Hg; [|done].
  destruct (expired now e); [by apply delete_inv|].
  destruct Hc as [l Hrep]. pose proof (promote_rep _ _ _ _ Hrep Hg) as Hrep'.
  destruct (moveToFront (lruNode e) (heap c) (lru c)) as [h' q'].
  eexists. apply Hrep'.
Qed.

Lemma has_expired c now ns key e :
  Map.get (makeFullKey ns key) (store c) = Some e → expired now e = true →
  has now ns key c = (false, remove_entry (makeFullKey ns key) e c).
Proof. intros Hg He. unfold has. by rewrite Hg, He, (delete_hit _ _ _ e). Qed.

Lemma has_inv now ns key c : cache_inv c → cache_inv (has now ns key c).2.
Proof.
  intros Hc. unfold has.
  destruct (Map.get _ (store c)) as [e|] eqn:Hg; [|done].
  destruct (expired now e); [by apply delete_inv|done].
Qed.

(** *** The loops of [clearNamespace] and [sweepExpired]

    Both walk the table and remove the entries picked by a test; see
    [purge]. *)

Lemma sweepExpired_purge now c :
  sweepExpired now c = purge (λ _ e, expired now e) (store c) c.
Proof. done. Qed.

Lemma purge_rep P m2 : ∀ c l m1,
  cache_rep c l → store c = m1 ++ m2 →
  cache_inv (purge P m2 c)
  ∧ store (purge P m2 c) = m1 ++ purged P m2
  ∧ maxBytes (purge P m2 c) = maxBytes c
  ∧ lru_keys (purge P m2 c)
    = filter (λ k, survives P m2 k = true) (lru_keys c).
Proof.
  induction m2 as [|[k e] m2 IH]; intros c l m1 Hrep Hs; simpl.
  { rewrite Hs, filter_all by done. split; [by exists l|done]. }
  unfold purged. rewrite filter_cons. simpl.
  assert (Hnd : NoDup (Map.keys (m1 ++ (k, e) :: m2))).
  { rewrite <-Hs. apply Hrep. }
  assert (Hg : Map.get k (store c) = Some e).
  { apply elem_get; [apply Hrep|]. rewrite Hs.
    apply elem_of_app. right. apply list_elem_of_here. }
  assert (Hk2 : Map.get k m2 = None).
  { apply get_None. unfold Map.keys in *. rewrite fmap_app in Hnd.
    by apply NoDup_app in Hnd as (_ & _ & [? _]%NoDup_cons). }
  destruct (P k e) eqn:HP.
  - rewrite decide_False by done.
    pose proof (remove_entry_rep_filter _ _ _ _ Hrep Hg) as Hrep'.
    destruct (IH _ _ m1 Hrep') as (Hinv & Hs' & Hm & Hl).
    { rewrite remove_entry_store, Hs. by apply delete_middle. }
    split; [done|]. split; [done|]. split; [by rewrite Hm, remove_entry_maxBytes|].
    rewrite Hl, remove_entry_lru_keys, list_filter_filter by (done || by exists l).
    apply list_filter_iff. intros k'. unfold survives. simpl.
    case_decide as Hkk; [subst k'; rewrite HP; simpl|]; naive_solver.
  - rewrite decide_True by done.
    destruct (IH _ _ (m1 ++ [(k, e)]) Hrep) as (Hinv & Hs' & Hm & Hl).
    { by rewrite <-app_assoc. }
    rewrite <-app_assoc in Hs'. do 3 (split; [done|]). rewrite Hl.
    apply list_filter_iff. intros k'. unfold survives. simpl.
    case_decide as Hkk; [subst k'; by rewrite HP, Hk2|done].
Qed.

Lemma sweepExpired_inv now c : cache_inv c → cache_inv (sweepExpired now c).
Proof.
  intros [l Hrep]. rewrite sweepExpired_purge.
  by destruct (purge_rep (λ _ e, expired now e) (store c) c l [] Hrep)
    as (Hinv & _).
Qed.

Lemma clearNamespace_loop ns m2 : ∀ n c l m1,
  cache_rep c l → store c = m1 ++ m2 →
  fold_left
    (fun '(removed, c) fullKey =>
       if String.prefix (ns +:+ ":") fullKey then
         match Map.get fullKey (store c) with
         | Some entry => (S removed, remove_entry fullKey entry c)
         | None => (removed, c)
         end
       else (removed, c))
    (Map.keys m2) (n, c)
  = ((n + length (filter (λ kv, in_namespace ns kv.1 kv.2 = true) m2))%nat,
     purge (in_namespace ns) m2 c).
Proof.
  induction m2 as [|[k e] m2 IH]; intros n c l m1 Hrep Hs; simpl.
  { by rewrite Nat.add_0_r. }
  assert (Hg : Map.get k (store c) = Some e).
  { apply elem_get; [apply Hrep|]. rewrite Hs.
    apply elem_of_app. right. apply list_elem_of_here. }
  rewrite filter_cons. cbn [fst snd].
  change (String.prefix (ns +:+ ":") k) with (in_namespace ns k e).
  destruct (in_namespace ns k e) eqn:HP.
  - rewrite Hg, decide_True by done.
    pose proof (remove_entry_rep_filter _ _ _ _ Hrep Hg) as Hrep'.
    rewrite (IH _ _ _ m1 Hrep').
    + simpl. f_equal. lia.
    + rewrite remove_entry_store, Hs. apply delete_middle.
      rewrite <-Hs. apply Hrep.
  - rewrite decide_False by done.
    apply (IH _ _ _ (m1 ++ [(k, e)]) Hrep). by rewrite <-app_assoc.
Qed.

Lemma clearNamespace_purge ns c :
  cache_inv c →
  clearNamespace ns c
  = (length (filter (λ kv, in_namespace ns kv.1 kv.2 = true) (store c)),
     purge (in_namespace ns) (store c) c).
Proof.
  intros [l Hrep]. unfold clearNamespace.
  by rewrite (clearNamespace_loop ns (store c) 0%nat c l []).
Qed.

Lemma clearNamespace_inv ns c : cache_inv c → cache_inv (clearNamespace ns c).2.
Proof.
  intros Hc. rewrite clearNamespace_purge by done. destruct Hc as [l Hrep].
  by destruct (purge_rep (in_namespace ns) (store c) c l [] Hrep)
    as (Hinv & _).
Qed.


(** *** What the walks leave in the table *)

Lemma get_purged P (m : list (string * CacheEntry)) k :
  NoDup (Map.keys m) →
  Map.get k (purged P m)
  = match Map.get k m with
    | Some e => if P k e then None else Some e
    | None => None
    end.
Proof.
  unfold purged, Map.keys. induction m as [|[k0 e0] m IH]; [done|].
  intros [Hk0 Hnd]%NoDup_cons. rewrite filter_cons. simpl in *.
  destruct (P k0 e0) eqn:HP.
  - rewrite decide_False by done. rewrite IH by done.
    case_decide as Hkk; [|done]. subst k0. rewrite HP.
    apply get_None in Hk0. by rewrite Hk0.
  - rewrite decide_True by done. simpl.
    case_decide as Hkk; [subst k0; by rewrite HP|by apply IH].
Qed.


(** *** Every reachable state satisfies the invariant *)

Lemma step_inv c o : cache_inv c → cache_inv (step c o).
Proof.
  destruct o; simpl;
    eauto using set_inv, get_inv, has_inv, delete_inv, clearNamespace_inv,
      evictUntilWithinBudget_inv, sweepExpired_inv.
Qed.

Lemma reachable_inv c : reachable c → cache_inv c.
Proof.
  induction 1 as [maxBytes|c o _ IH].
  - exists []. apply new_rep.
  - by apply step_inv.
Qed.
End cache_facts.

(** * The claims *)

(** C1: in every reachable state, and after every operation on it ([set],
    [get], [has], [delete], [clearNamespace], budget enforcement, a sweep
    pass), [usedBytes] is the exact sum of the [size] fields of the entries
    of the store, and the keys on the nodes of the recency list are the
    keys of the store. *)
Theorem reachable_consistent (c : InMemoryCache) :
  reachable c →
  consistent c ∧ ∀ o, consistent (step c o).
Proof.
  intros Hc. split.
  - by apply inv_consistent, reachable_inv.
  - intros o. by apply inv_consistent, step_inv, reachable_inv.
Qed.

Lemma reachable_consistent_witness :
  let c := step (step (step (new (Some 10))
                   (OpSet 5 "n" "a" (VString "12345") (mkOptions (Some 20))))
                   (OpSet 6 "n" "b" (VString "12345") (mkOptions None)))
                   (OpGet 7 "n" "a") in
  consistent c ∧ ∀ o, consistent (step c o).
Proof. apply reachable_consistent. repeat constructor. Defined.



(** C2, as stated, fails: with a budget of 10 bytes that [a] and [b] of 5
    bytes each fit exactly, after [set(a)], [set(b)] and [has(a)] a
    [set(c)] of 6 bytes exceeds the budget and evicts [b] as well as [a]:
    evicting [a] alone leaves 11 bytes in use. *)
Lemma has_scenario_evicts_both :
  let o := mkOptions None in
  let va := VString "12345" in
  let vb := VString "12345" in
  let vc := VString "123456" in
  let c2 := set 2 "n" "b" vb o (set 1 "n" "a" va o (new (Some 10))) in
  let c3 := set 4 "n" "c" vc o (has 3 "n" "a" c2).2 in
  byteLength va + byteLength vb = maxBytes c2
  ∧ usedBytes c2 + byteLength vc > maxBytes c2
  ∧ (has 3 "n" "a" c2).1 = true
  ∧ Map.get (makeFullKey "n" "a") (store c3) = None
  ∧ Map.get (makeFullKey "n" "b") (store c3) = None
  ∧ lru_keys c3 = [makeFullKey "n" "c"]
  ∧ usedBytes c3 = 6.
Proof. by vm_compute. Qed.

(** C2, amended: [has] never changes the recency order.  For a present key
    that has not expired, [has] answers [true] and returns the state as it
    was, the recency list included.  In particular, from an empty cache
    whose budget [B] is exactly the size of [a] and [b] together, after
    [set(a)], [set(b)] and [has(a)], a [set(c)] that exceeds the budget
    evicts [a]; it keeps [b] (and [c]) when evicting [a] is enough, that is
    when [c] is not larger than [a]. *)
Theorem has_keeps_recency_order :
  (∀ now ns key c e,
     Map.get (makeFullKey ns key) (store c) = Some e →
     expired now e = false →
     has now ns key c = (true, c))
  ∧ (∀ B ns a b c va vb vc t1 t2 t3 t4,
       a ≠ b → a ≠ c → b ≠ c →
       byteLength va + byteLength vb = B →
       0 < byteLength vc →
       let o := mkOptions None in
       let c2 := set t2 ns b vb o (set t1 ns a va o (new (Some B))) in
       let c3 := set t4 ns c vc o (has t3 ns a c2).2 in
       has t3 ns a c2 = (true, c2)
       ∧ lru_keys c2 = [makeFullKey ns b; makeFullKey ns a]
       ∧ Map.get (makeFullKey ns a) (store c3) = None
       ∧ (byteLength vc ≤ byteLength va →
          is_Some (Map.get (makeFullKey ns b) (store c3))
          ∧ is_Some (Map.get (makeFullKey ns c) (store c3))
          ∧ lru_keys c3 = [makeFullKey ns c; makeFullKey ns b])).
Proof.
  split.
  { intros now ns key c e Hg He. unfold has. by rewrite Hg, He. }
  intros B ns a b c va vb vc t1 t2 t3 t4 Hab Hac Hbc Hfit Hc o c2 c3.
  assert (Hreach : reachable c2).
  { do 2 apply (reachable_step _ (OpSet _ _ _ _ _)). apply reachable_new. }
  set (fa := makeFullKey ns a) in *. set (fb := makeFullKey ns b) in *.
  set (fc := makeFullKey ns c) in *.
  assert (Hfab : fa ≠ fb) by (by intros ?%makeFullKey_inj_key).
  assert (Hfac : fa ≠ fc) by (by intros ?%makeFullKey_inj_key).
  assert (Hfbc : fb ≠ fc) by (by intros ?%makeFullKey_inj_key).
  unfold byteLength in *.
  remember (Z.of_nat (length (normalize va))) as sa eqn:Hsa.
  remember (Z.of_nat (length (normalize vb))) as sb eqn:Hsb.
  remember (Z.of_nat (length (normalize vc))) as sc eqn:Hsc.
  assert (Hnn : 0 ≤ sb) by (rewrite Hsb; apply Nat2Z.is_nonneg).
  (* the state after [set(a)] and [set(b)] *)
  assert (Hc1 : set t1 ns a va o (new (Some B)) =
    mkCache [(fa, mkEntry (normalize va) 0 0%nat sa)] [mkNode fa None None]
            (mkList (Some 0%nat) (Some 0%nat)) B sa).
  { unfold set. rewrite evictUntilWithinBudget_within
      by (simpl; rewrite <-Hsa; lia).
    cbn. by rewrite <-Hsa. }
  assert (Hc2 : c2 =
    mkCache [(fa, mkEntry (normalize va) 0 0%nat sa);
             (fb, mkEntry (normalize vb) 0 1%nat sb)]
            [mkNode fa (Some 1%nat) None; mkNode fb None (Some 0%nat)]
            (mkList (Some 1%nat) (Some 0%nat)) B (sa + sb)).
  { subst c2. rewrite Hc1. unfold set, set_entry.
    cbn [store Map.get]. fold fb. decide_keys.
    rewrite evictUntilWithinBudget_within
      by (simpl; rewrite <-Hsb; lia).
    cbn. rewrite <-Hsb. by decide_keys. }
  (* [has(a)] answers true and changes nothing *)
  assert (Hhas : has t3 ns a c2 = (true, c2)).
  { rewrite Hc2. unfold has. cbn [store Map.get]. fold fa. by decide_keys. }
  split; [done|]. split; [by rewrite Hc2|].
  (* [set(c)] writes [c] in front and exceeds the budget *)
  set (c1 := set_entry t4 ns c vc o c2).
  assert (Hc1' : c1 =
    mkCache [(fa, mkEntry (normalize va) 0 0%nat sa);
             (fb, mkEntry (normalize vb) 0 1%nat sb);
             (fc, mkEntry (normalize vc) 0 2%nat sc)]
            [mkNode fa (Some 1%nat) None; mkNode fb (Some 2%nat) (Some 0%nat);
             mkNode fc None (Some 1%nat)]
            (mkList (Some 2%nat) (Some 0%nat)) B (sa + sb + sc)).
  { subst c1. rewrite Hc2. unfold set_entry.
    cbn [store Map.get]. fold fc. decide_keys.
    cbn. rewrite <-Hsc. by decide_keys. }
  assert (Hc3 : c3 = evictUntilWithinBudget c1).
  { subst c3. by rewrite Hhas. }
  split.
  - (* the tail [a] is evicted *)
    assert (Hinv : cache_inv c1) by by apply set_entry_inv, reachable_inv.
    destruct Hinv as [l Hrep].
    pose proof (dll_nodes _ _ _ (rep_dll _ _ Hrep)) as Hl.
    rewrite Hc3.
    apply (evict_tail c1 l fa (mkEntry (normalize va) 0 0%nat sa) Hrep).
    + rewrite Hc1'. simpl. lia.
    + rewrite Hc1'. cbn [store Map.get]. by decide_keys.
    + by rewrite <-Hl, Hc1'.
  - (* evicting [a] is enough when [c] is not larger *)
    intros Hca. rewrite Hc3, Hc1'. unfold evictUntilWithinBudget.
    cbn [heap length]. rewrite evict_loop_unfold. cbn [usedBytes maxBytes].
    assert ((sa + sb + sc >? B) = true) as -> by lia.
    cbn -[Z.add Z.sub]. fold fa. decide_keys. cbn [size].
    assert ((sa + sb + sc - sa >? B) = false) as -> by lia.
    cbn. decide_keys. eauto.
Qed.

Lemma has_keeps_recency_order_witness :
  let o := mkOptions None in
  let c2 := set 2 "n" "b" (VString "12345") o
              (set 1 "n" "a" (VString "12345") o (new (Some 10))) in
  let c3 := set 4 "n" "c" (VString "1") o (has 3 "n" "a" c2).2 in
  has 3 "n" "a" c2 = (true, c2)
  ∧ lru_keys c2 = [makeFullKey "n" "b"; makeFullKey "n" "a"]
  ∧ Map.get (makeFullKey "n" "a") (store c3) = None
  ∧ (byteLength (VString "1") ≤ byteLength (VString "12345") →
     is_Some (Map.get (makeFullKey "n" "b") (store c3))
     ∧ is_Some (Map.get (makeFullKey "n" "c") (store c3))
     ∧ lru_keys c3 = [makeFullKey "n" "c"; makeFullKey "n" "b"]).
Proof.
  apply (proj2 has_keeps_recency_order 10 "n" "a" "b" "c"
           (VString "12345") (VString "12345") (VString "1") 1%N 2%N 3%N 4%N);
    [done|done|done|reflexivity|by vm_compute].
Defined.

(** C3, as stated, fails: with a budget of 3 bytes, [set] of a value of 5
    bytes into the empty cache leaves no entry behind; the new entry is not
    the sole resident, it is evicted as well. *)
Lemma oversized_entry_not_resident :
  let c := new (Some 3) in
  let c' := set 0 "n" "k" (VString "12345") (mkOptions None) c in
  byteLength (VString "12345") > maxBytes c
  ∧ ¬ ∃ e, store c' = [(makeFullKey "n" "k", e)].
Proof. split; [done|]. by intros [e He]. Qed.

(** C3, amended: for every [set(ns, k, v)] where the normalised size of [v]
    alone exceeds [maxBytes], the [set] succeeds without error and budget
    enforcement removes every entry, the new one included: afterwards the
    cache is empty and [usedBytes] is 0. *)
Theorem oversized_set_empties_cache (c : InMemoryCache) now ns key v opts :
  reachable c →
  byteLength v > maxBytes c →
  let c' := set now ns key v opts c in
  store c' = [] ∧ lru c' = LRUList.empty ∧ lru_keys c' = []
  ∧ usedBytes c' = 0 ∧ maxBytes c' = maxBytes c.
Proof.
  intros [l Hrep]%reachable_inv Hbig c'. subst c'. unfold set.
  destruct (set_entry_rep now ns key v opts c l Hrep) as (p & e & Hw).
  pose proof (written_get _ _ _ _ _ _ _ _ _ Hw) as Hg.
  destruct Hw as [Hrep' _ He Hv _ Hmax _ _].
  destruct (evict_oversized _ _ _ _ _ Hrep' Hg He) as (Hs & Hq & Hu & Hm).
  { rewrite (rep_size _ _ Hrep' _ _ Hg), Hv, Hmax. apply Hbig. }
  by rewrite Hs, Hq, Hu, Hm, Hmax, (lru_keys_empty _ Hq).
Qed.

Lemma oversized_set_empties_cache_witness :
  let c := set 1 "n" "a" (VString "12") (mkOptions None) (new (Some 3)) in
  let c' := set 2 "n" "k" (VString "12345") (mkOptions None) c in
  store c' = [] ∧ lru c' = LRUList.empty ∧ lru_keys c' = []
  ∧ usedBytes c' = 0 ∧ maxBytes c' = maxBytes c.
Proof.
  apply oversized_set_empties_cache; [|done].
  apply (reachable_step _ (OpSet _ _ _ _ _)), reachable_new.
Defined.

(** C4: the lookup identity [`${ns}:${key}`] of two distinct pairs should
    differ, also when a namespace or a key holds the separator.  The code
    does not keep that promise of its comment ("combined to avoid
    collisions"): the pairs [("a", "b:c")] and [("a:b", "c")] differ and
    get the same identity, so that a [get] under one pair reads what a
    [set] under the other has written. *)
Theorem makeFullKey_collision :
  ("a", "b:c") ≠ ("a:b", "c")
  ∧ makeFullKey "a" "b:c" = makeFullKey "a:b" "c"
  ∧ (get 1 "a:b" "c"
       (set 0 "a" "b:c" (VString "v") (mkOptions None) (new None))).1
    = Some (Buffer_from "v").
Proof. by vm_compute. Qed.

(** C5: [clearNamespace(ns1)] should leave the entries of every other
    namespace alone.  The test [fullKey.startsWith(`${ns}:`)] also holds
    for the keys of a namespace that starts with [ns1] and the separator:
    clearing ["a"] removes the entry of namespace ["a:b"]. *)
Theorem clearNamespace_crosses_namespaces :
  let c := set 0 "a:b" "c" (VString "v") (mkOptions None) (new None) in
  "a" ≠ "a:b"
  ∧ (has 1 "a:b" "c" c).1 = true
  ∧ (clearNamespace "a" c).1 = 1%nat
  ∧ (has 1 "a:b" "c" (clearNamespace "a" c).2).1 = false.
Proof. by vm_compute. Qed.

(** C6: [get(ns, k)] returns none and changes nothing when the key is
    absent; when the entry is there but expired ([expiresAt] is not the
    sentinel 0 and [expiresAt <= now]) it returns none and deletes the
    entry: the entry leaves the table and the recency list, and its size is
    taken off [usedBytes]; otherwise it returns the stored bytes and moves
    the key to the front of the recency list, the rest of the order, the
    table and [usedBytes] unchanged.  [get] is a total function: no case
    raises. *)
Theorem get_outcomes (c : InMemoryCache) (now : N) (ns key : string) :
  reachable c →
  let fk := makeFullKey ns key in
  let r := get now ns key c in
  (Map.get fk (store c) = None → r = (None, c))
  ∧ (∀ e, Map.get fk (store c) = Some e →
          (expiresAt e ≠ 0 ∧ expiresAt e ≤ now)%N →
          r.1 = None
          ∧ store r.2 = Map.delete fk (store c)
          ∧ Map.get fk (store r.2) = None
          ∧ lru_keys r.2 = filter (λ k, k ≠ fk) (lru_keys c)
          ∧ (fk ∉ lru_keys (r.2))
          ∧ usedBytes r.2 = usedBytes c - size e
          ∧ maxBytes r.2 = maxBytes c)
  ∧ (∀ e, Map.get fk (store c) = Some e →
          (expiresAt e = 0 ∨ now < expiresAt e)%N →
          r.1 = Some (value e)
          ∧ store r.2 = store c
          ∧ lru_keys r.2 = fk :: filter (λ k, k ≠ fk) (lru_keys c)
          ∧ usedBytes r.2 = usedBytes c
          ∧ maxBytes r.2 = maxBytes c).
Proof.
  intros Hc%reachable_inv fk r. subst r. split; [|split].
  - apply get_miss.
  - intros e Hg He%expired_true. rewrite (get_expired _ _ _ _ e) by done.
    cbn [fst snd].
    rewrite remove_entry_store, remove_entry_usedBytes, remove_entry_maxBytes,
      remove_entry_lru_keys, get_delete, decide_True by done.
    repeat (split; [done|]). split; [|done].
    rewrite list_elem_of_filter. by intros [? _].
  - intros e Hg He%expired_false. rewrite (get_hit _ _ _ _ e) by done.
    cbn [fst snd]. by rewrite (promote_lru_keys _ fk).
Qed.

Lemma get_outcomes_witness :
  let c := set 5 "n" "b" (VString "xy") (mkOptions None)
             (set 5 "n" "a" (VString "12345") (mkOptions (Some 20)) (new None)) in
  let get_late := get 25 "n" "a" c in
  let get_soon := get 24 "n" "a" c in
  (get 25 "n" "zz" c = (None, c))
  ∧ (get_late.1 = None ∧ lru_keys get_late.2 = ["n:b"]
     ∧ usedBytes get_late.2 = 2)
  ∧ (get_soon.1 = Some (Buffer_from "12345")
     ∧ lru_keys get_soon.2 = ["n:a"; "n:b"] ∧ usedBytes get_soon.2 = 7).
Proof.
  set (c0 := set 5 "n" "a" (VString "12345") (mkOptions (Some 20)) (new None)).
  set (c := set 5 "n" "b" (VString "xy") (mkOptions None) c0).
  assert (Hc : reachable c).
  { apply (reachable_step _ (OpSet _ _ _ _ _)),
      (reachable_step _ (OpSet _ _ _ _ _)), reachable_new. }
  intros c' get_late get_soon. subst c' get_late get_soon.
  pose proof (get_outcomes c 25 "n" "zz" Hc) as (Hmiss & _ & _).
  pose proof (get_outcomes c 25 "n" "a" Hc) as (_ & Hexp & _).
  pose proof (get_outcomes c 24 "n" "a" Hc) as (_ & _ & Hhit).
  split; [by apply Hmiss|]. split.
  - destruct (Hexp (mkEntry (Buffer_from "12345") 25 0%nat 5))
      as (H1 & _ & _ & H2 & _ & H3 & _); [done|done|].
    by rewrite H1, H2, H3.
  - destruct (Hhit (mkEntry (Buffer_from "12345") 25 0%nat 5))
      as (H1 & _ & H2 & H3 & _); [done|by right|].
    by rewrite H1, H2, H3.
Defined.



(** C8: starting from an empty cache whose budget admits the value,
    [set("n", "k", {a:1})] followed by [get("n", "k")] before any expiry
    returns the stored serialisation of the value unchanged, and these
    bytes parse back to exactly [{a:1}]. *)
Theorem set_get_roundtrip (maxBytes : option Z) (now now' : N) (opts : SetOptions) :
  byteLength (VObject object_a1) ≤ default (64 * 1024 * 1024) maxBytes →
  (default 0 (ttlMs opts) ≤ 0
   ∨ (now' < now + Z.to_N (default 0%Z (ttlMs opts)))%N) →
  let c := set now "n" "k" (VObject object_a1) opts (new maxBytes) in
  ∃ buf,
    (get now' "n" "k" c).1 = Some buf
    ∧ buf = Buffer_from (JSON.stringify object_a1)
    ∧ JSON.parse (Buffer_toString buf) = Some object_a1.
Proof.
  intros Hfit Hlive c. exists (Buffer_from (JSON.stringify object_a1)).
  split; [|split; [done|by vm_compute]].
  subst c. unfold set. rewrite evictUntilWithinBudget_within by apply Hfit.
  unfold get, set_entry. cbn [new store Map.get Heap.alloc].
  cbn [LRUList.pushFront LRUList.link_front LRUList.empty head tail].
  cbn [store Map.set Map.get]. rewrite decide_True by done.
  unfold expired. cbn [expiresAt].
  destruct (0 <? default 0 (ttlMs opts)) eqn:Httl.
  - apply Z.ltb_lt in Httl.
    assert ((now + Z.to_N (default 0%Z (ttlMs opts)) <=? now')%N = false) as ->.
    { apply N.leb_gt. destruct Hlive as [Hle|Hlt]; [lia|done]. }
    rewrite andb_false_r. cbn [lruNode heap lru].
    by destruct (LRUList.moveToFront _ _ _).
  - cbn [N.ltb N.compare andb lruNode heap lru].
    by destruct (LRUList.moveToFront _ _ _).
Qed.

Lemma set_get_roundtrip_witness :
  let c := set 100 "n" "k" (VObject object_a1) (mkOptions (Some 20))
               (new (Some 1024)) in
  ∃ buf,
    (get 119 "n" "k" c).1 = Some buf
    ∧ buf = Buffer_from (JSON.stringify object_a1)
    ∧ JSON.parse (Buffer_toString buf) = Some object_a1.
Proof.
  apply (set_get_roundtrip (Some 1024) 100 119 (mkOptions (Some 20)));
    [by vm_compute|right; by vm_compute].
Defined.

(** C9: [delete] does not consult the expiry.  For an entry that is
    already expired ([expiresAt] nonzero and [<= now]) and still in the
    table, [delete(ns, k)] returns true and removes it from the table and
    the recency list, whereas [has(ns, k)] and [get(ns, k)] at the same
    instant report it absent. *)
Theorem delete_ignores_expiry (c : InMemoryCache) (now : N) (ns key : string)
    (e : CacheEntry) :
  reachable c →
  Map.get (makeFullKey ns key) (store c) = Some e →
  (expiresAt e ≠ 0 ∧ expiresAt e ≤ now)%N →
  let d := delete ns key c in
  d.1 = true
  ∧ Map.get (makeFullKey ns key) (store d.2) = None
  ∧ (makeFullKey ns key ∉ lru_keys (d.2))
  ∧ usedBytes d.2 = usedBytes c - size e
  ∧ (has now ns key c).1 = false
  ∧ (get now ns key c).1 = None.
Proof.
  intros Hc%reachable_inv Hg He%expired_true d. subst d.
  rewrite (delete_hit _ _ _ e), (has_expired _ _ _ _ e),
    (get_expired _ _ _ _ e) by done.
  cbn [fst snd].
  rewrite remove_entry_store, remove_entry_usedBytes, remove_entry_lru_keys,
    get_delete, decide_True by done.
  repeat (split; [done|]). split; [|done].
  rewrite list_elem_of_filter. by intros [? _].
Qed.

Lemma delete_ignores_expiry_witness :
  let c := set 5 "n" "a" (VString "12345") (mkOptions (Some 20)) (new None) in
  let d := delete "n" "a" c in
  d.1 = true
  ∧ Map.get (makeFullKey "n" "a") (store d.2) = None
  ∧ (makeFullKey "n" "a" ∉ lru_keys (d.2))
  ∧ usedBytes d.2 = usedBytes c - size (mkEntry (Buffer_from "12345") 25 0%nat 5)
  ∧ (has 30 "n" "a" c).1 = false
  ∧ (get 30 "n" "a" c).1 = None.
Proof.
  apply (delete_ignores_expiry _ 30 "n" "a"
           (mkEntry (Buffer_from "12345") 25 0%nat 5)); [|done|done].
  apply (reachable_step _ (OpSet _ _ _ _ _)), reachable_new.
Defined.

(** C10: [stats()] counts the entries that are expired and not yet purged.
    In a state that holds an entry whose [expiresAt] has passed, the
    [keys] count is one more than the number of the other entries and
    [usedBytes] is the size of that entry plus the sizes of the others:
    [stats] reads the table size and the counters as they are, without
    looking at the clock, and returns nothing but the three numbers. *)
Theorem stats_counts_expired (c : InMemoryCache) (now : N) (k : string)
    (e : CacheEntry) :
  reachable c →
  Map.get k (store c) = Some e →
  (expiresAt e ≠ 0 ∧ expiresAt e ≤ now)%N →
  stats c = Stats.mk (length (store c)) (usedBytes c) (maxBytes c)
  ∧ Stats.keys (stats c) = S (length (Map.delete k (store c)))
  ∧ Stats.usedBytes (stats c) = size e + total_size (Map.delete k (store c)).
Proof.
  intros [l Hrep]%reachable_inv Hg _. split; [done|]. simpl. split.
  - apply (delete_present_length _ _ e); [apply Hrep|done].
  - rewrite (total_size_delete _ _ e), (rep_used _ _ Hrep); [lia|apply Hrep|done].
Qed.

Lemma stats_counts_expired_witness :
  let c := set 6 "n" "b" (VString "xy") (mkOptions None)
             (set 5 "n" "a" (VString "12345") (mkOptions (Some 20)) (new None)) in
  stats c = Stats.mk (length (store c)) (usedBytes c) (maxBytes c)
  ∧ Stats.keys (stats c) = S (length (Map.delete "n:a" (store c)))
  ∧ Stats.usedBytes (stats c)
    = size (mkEntry (Buffer_from "12345") 25 0%nat 5)
      + total_size (Map.delete "n:a" (store c)).
Proof.
  apply (stats_counts_expired _ 30 "n:a"
           (mkEntry (Buffer_from "12345") 25 0%nat 5)); [|done|done].
  apply (reachable_step _ (OpSet _ _ _ _ _)),
    (reachable_step _ (OpSet _ _ _ _ _)), reachable_new.
Defined.

(** * Further properties of the engine *)

(** X1: across namespaces that do not hold the separator [":"], the lookup
    identity is injective: two pairs with the same identity are the same
    pair. *)
Theorem makeFullKey_injective_without_separator (ns1 k1 ns2 k2 : string) :
  has_separator ns1 = false → has_separator ns2 = false →
  makeFullKey ns1 k1 = makeFullKey ns2 k2 →
  (ns1, k1) = (ns2, k2).
Proof. intros H1 H2 Heq. by destruct (makeFullKey_inj _ _ _ _ H1 H2 Heq) as [-> ->]. Qed.

Lemma makeFullKey_injective_without_separator_witness :
  ("app", "user:1") = ("app", "user:1").
Proof.
  by apply (makeFullKey_injective_without_separator "app" "user:1" "app" "user:1").
Defined.



(** X3: a sweep pass removes exactly the expired entries.  After
    [sweepExpired] at time [now] the table holds the entries that had not
    expired at [now], unchanged and in their order, the recency list holds
    their keys in the order they had, and the budget is as before. *)
Theorem sweepExpired_removes_expired (c : InMemoryCache) (now : N) :
  reachable c →
  let c' := sweepExpired now c in
  store c' = filter (λ kv, expired now kv.2 = false) (store c)
  ∧ (∀ k e, Map.get k (store c') = Some e
            ↔ Map.get k (store c) = Some e ∧ expired now e = false)
  ∧ lru_keys c'
    = filter (λ k, survives (λ _ e, expired now e) (store c) k = true)
             (lru_keys c)
  ∧ maxBytes c' = maxBytes c.
Proof.
  intros [l Hrep]%reachable_inv c'. subst c'. rewrite sweepExpired_purge.
  destruct (purge_rep (λ _ e, expired now e) (store c) c l [] Hrep)
    as (_ & Hs & Hm & Hl); [done|].
  rewrite Hs, Hl, Hm. simpl. split; [done|]. split; [|done].
  intros k e. fold (purged (λ _ e, expired now e) (store c)).
  rewrite get_purged by apply Hrep.
  destruct (Map.get k (store c)) as [e'|]; [|split; [done|by intros [? _]]].
  destruct (expired now e') eqn:He.
  - split; [done|]. intros [[= ->] He']. congruence.
  - split; [by intros [= ->]|by intros [? _]].
Qed.

Lemma sweepExpired_removes_expired_witness :
  let c := set 6 "n" "b" (VString "xy") (mkOptions None)
             (set 5 "n" "a" (VString "12345") (mkOptions (Some 20)) (new None)) in
  let c' := sweepExpired 25 c in
  Map.keys (store c') = ["n:b"] ∧ lru_keys c' = ["n:b"]
  ∧ maxBytes c' = maxBytes c.
Proof.
  intros c c'.
  assert (Hc : reachable c).
  { do 2 apply (reachable_step _ (OpSet _ _ _ _ _)). apply reachable_new. }
  destruct (sweepExpired_removes_expired c 25 Hc) as (H1 & _ & H2 & H3).
  subst c'. rewrite H1, H2, H3. by vm_compute.
Defined.

(** X4: idempotent delete.  Deleting a key that is not in the table
    returns false and leaves the state as it was, [usedBytes] and the
    recency list included; so does a second [delete] of the same key. *)
Theorem delete_absent_is_noop :
  (∀ c ns key,
     Map.get (makeFullKey ns key) (store c) = None →
     delete ns key c = (false, c))
  ∧ (∀ c ns key,
       let d := delete ns key c in delete ns key d.2 = (false, d.2)).
Proof.
  assert (Habs : ∀ c ns key,
    Map.get (makeFullKey ns key) (store c) = None →
    delete ns key c = (false, c)).
  { intros c ns key Hg. unfold delete. by rewrite Hg. }
  split; [done|]. intros c ns key d. apply Habs. subst d. unfold delete.
  destruct (Map.get _ (store c)) as [e|] eqn:Hg; [|done].
  cbn [snd]. by rewrite remove_entry_store, get_delete, decide_True.
Qed.

(** X5: TTL correctness.  After a [set] with a value that fits the budget,
    a [get] or [has] of the key finds the value as long as the entry has
    not expired (no TTL, or a time before [now + ttl]), and finds nothing
    from the time [now + ttl] on. *)
Theorem set_then_get (c : InMemoryCache) (now now' : N) (ns key : string)
    (v : Value) (opts : SetOptions) :
  reachable c →
  byteLength v ≤ maxBytes c →
  let c' := set now ns key v opts c in
  let ttl := default 0 (ttlMs opts) in
  ((ttl ≤ 0 ∨ (now' < now + Z.to_N ttl)%N) →
     (has now' ns key c').1 = true
     ∧ (get now' ns key c').1 = Some (normalize v))
  ∧ ((0 < ttl ∧ (now + Z.to_N ttl ≤ now')%N) →
     (has now' ns key c').1 = false
     ∧ (get now' ns key c').1 = None).
Proof.
  intros Hc%reachable_inv Hfit c' ttl.
  destruct (set_fits_get now ns key v opts c Hc Hfit) as (e & Hg & Hv & He).
  fold c' ttl in Hg, He. split.
  - intros Hlive.
    assert (Hx : expired now' e = false).
    { apply expired_false. rewrite He.
      destruct (0 <? ttl) eqn:Httl; [|by left].
      apply Z.ltb_lt in Httl. right. destruct Hlive; [lia|done]. }
    rewrite (get_hit _ _ _ _ e) by done. unfold has. by rewrite Hg, Hx, Hv.
  - intros [Httl Hdead].
    assert (Hx : expired now' e = true).
    { apply expired_true. rewrite He.
      apply Z.ltb_lt in Httl as Hb. rewrite Hb. lia. }
    by rewrite (get_expired _ _ _ _ e), (has_expired _ _ _ _ e).
Qed.

Lemma set_then_get_witness :
  let c := set 1 "n" "a" (VString "12345") (mkOptions None) (new (Some 10)) in
  let c' := set 100 "n" "k" (VString "v") (mkOptions (Some 20)) c in
  ((has 119 "n" "k" c').1 = true
   ∧ (get 119 "n" "k" c').1 = Some (normalize (VString "v")))
  ∧ ((has 120 "n" "k" c').1 = false ∧ (get 120 "n" "k" c').1 = None).
Proof.
  intros c c'.
  assert (Hc : reachable c).
  { apply (reachable_step _ (OpSet _ _ _ _ _)), reachable_new. }
  pose proof (set_then_get c 100 119 "n" "k" (VString "v") (mkOptions (Some 20))
                Hc) as [H1 _]; [done|].
  pose proof (set_then_get c 100 120 "n" "k" (VString "v") (mkOptions (Some 20))
                Hc) as [_ H2]; [done|].
  split; [apply H1; by right|apply H2; by split].
Defined.

(** X6: LRU correctness.  A [set] moves its key to the front of the recency
    list and then evicts from the tail only: the keys that remain are the
    most recently used ones in their order, their entries are untouched,
    the evicted keys are gone from the table, and nothing is evicted when
    the write stays within the budget. *)
Theorem set_evicts_least_recently_used (c : InMemoryCache) now ns key v opts :
  reachable c →
  let c1 := set_entry now ns key v opts c in
  let c' := set now ns key v opts c in
  lru_keys c1
  = makeFullKey ns key :: filter (λ k, k ≠ makeFullKey ns key) (lru_keys c)
  ∧ ∃ evicted,
      lru_keys c1 = lru_keys c' ++ evicted
      ∧ (∀ k, k ∈ evicted → Map.get k (store c') = None)
      ∧ (∀ k, k ∈ lru_keys c' → Map.get k (store c') = Map.get k (store c1))
      ∧ (usedBytes c1 ≤ maxBytes c1 → evicted = []).
Proof.
  intros Hc%reachable_inv c1 c'. split; [by apply set_entry_lru_keys|].
  assert (Hc1 : cache_inv c1) by by apply set_entry_inv.
  destruct Hc1 as [l Hrep].
  destruct (evictUntilWithinBudget_rep _ _ Hrep) as (l1 & l2 & _ & Hev).
  fold c' in Hev. pose proof (eviction_lru_keys _ _ _ _ _ Hrep Hev) as Hl.
  destruct Hev as [-> Hrep' _ _ Hst _ Hnone _].
  exists (key_of (heap c1) <$> l2). split; [done|]. split; [|split].
  - intros k (x & -> & Hx)%list_elem_of_fmap.
    destruct (Map.get _ (store c')) as [e|] eqn:Hg; [exfalso|done].
    apply Hst in Hg as [Hg Hin].
    destruct (rep_entry _ _ Hrep _ _ Hg) as [_ Hk].
    assert (Hex : lruNode e = x).
    { apply (rep_key_inj _ _ _ _ Hrep); [| |done]; apply elem_of_app; auto. }
    rewrite Hex in Hin.
    destruct (rep_dll _ _ Hrep) as [(_ & Hdisj & _)%NoDup_app _].
    by apply (Hdisj x).
  - intros k Hk%lru_keys_elem; [|by exists l1].
    destruct (Map.get k (store c')) as [e|] eqn:Hg.
    + apply Hst in Hg as [Hg _]. by rewrite Hg.
    + by apply get_None in Hg.
  - intros Hle. subst c'. unfold set in Hl.
    rewrite evictUntilWithinBudget_within in Hl by done.
    rewrite <-(app_nil_r (lru_keys c1)) in Hl at 1.
    by apply app_inv_head in Hl.
Qed.

Lemma set_evicts_least_recently_used_witness :
  let c := set 1 "n" "b" (VString "12345") (mkOptions None)
             (set 0 "n" "a" (VString "12345") (mkOptions None) (new (Some 10))) in
  let c1 := set_entry 2 "n" "c" (VString "1") (mkOptions None) c in
  let c' := set 2 "n" "c" (VString "1") (mkOptions None) c in
  lru_keys c1
  = makeFullKey "n" "c" :: filter (λ k, k ≠ makeFullKey "n" "c") (lru_keys c)
  ∧ ∃ evicted,
      lru_keys c1 = lru_keys c' ++ evicted
      ∧ (∀ k, k ∈ evicted → Map.get k (store c') = None)
      ∧ (∀ k, k ∈ lru_keys c' → Map.get k (store c') = Map.get k (store c1))
      ∧ (usedBytes c1 ≤ maxBytes c1 → evicted = []).
Proof.
  apply set_evicts_least_recently_used.
  do 2 apply (reachable_step _ (OpSet _ _ _ _ _)). apply reachable_new.
Defined.

(** ** The capacity bound *)

Section capacity_facts.
Implicit Types (c : InMemoryCache) (e : CacheEntry).

Lemma inv_used_nonneg c : cache_inv c → 0 ≤ usedBytes c.
Proof.
  intros [l Hrep]. rewrite (rep_used _ _ Hrep). apply total_size_nonneg.
  intros k e. apply (rep_entry_size _ _ _ _ Hrep).
Qed.

Lemma total_size_purged_le P (m : list (string * CacheEntry)) :
  (∀ k e, (k, e) ∈ m → 0 ≤ size e) →
  total_size (purged P m) ≤ total_size m.
Proof.
  unfold purged. induction m as [|[k e] m IH]; [done|]. intros Hs.
  pose proof (Hs k e (list_elem_of_here _ _)) as He.
  assert (IH' : total_size (filter (λ kv, P kv.1 kv.2 = false) m)
                ≤ total_size m).
  { apply IH. intros k' e' Hin. apply (Hs k'). by apply list_elem_of_further. }
  rewrite filter_cons. case_decide; simpl; lia.
Qed.

Lemma purge_bounds P c :
  cache_inv c →
  usedBytes (purge P (store c) c) ≤ usedBytes c
  ∧ maxBytes (purge P (store c) c) = maxBytes c.
Proof.
  intros [l Hrep].
  destruct (purge_rep P (store c) c l [] Hrep) as ([l' Hrep'] & Hs & Hm & _);
    [done|].
  split; [|done].
  rewrite (rep_used _ _ Hrep'), (rep_used _ _ Hrep), Hs. simpl.
  apply total_size_purged_le. intros k e. apply (rep_entry_size _ _ _ _ Hrep).
Qed.

Lemma remove_entry_bounds c k e :
  cache_inv c → Map.get k (store c) = Some e →
  usedBytes (remove_entry k e c) ≤ usedBytes c.
Proof.
  intros [l Hrep] Hg. rewrite remove_entry_usedBytes.
  pose proof (rep_size _ _ Hrep _ _ Hg). lia.
Qed.

Lemma set_bounds now ns key v opts c :
  cache_inv c →
  maxBytes (set now ns key v opts c) = maxBytes c
  ∧ (0 ≤ maxBytes c → usedBytes (set now ns key v opts c) ≤ maxBytes c).
Proof.
  intros [l Hrep]. unfold set.
  destruct (set_entry_rep now ns key v opts c l Hrep) as (p & e & Hw).
  destruct Hw as [Hrep1 _ _ _ _ Hmax _ _].
  destruct (evictUntilWithinBudget_rep _ _ Hrep1)
    as (l1 & l2 & _ & [_ Hrep' Hm Hfin _ _ _ _]).
  rewrite Hm, Hmax. split; [done|]. intros Hpos.
  destruct Hfin as [Hle| ->]; [by rewrite <-Hmax|].
  destruct (store_nil_rep _ Hrep') as [Hs _].
  by rewrite (rep_used _ _ Hrep'), Hs.
Qed.

Lemma evict_bounds c :
  cache_inv c →
  maxBytes (evictUntilWithinBudget c) = maxBytes c
  ∧ (0 ≤ maxBytes c → usedBytes (evictUntilWithinBudget c) ≤ maxBytes c).
Proof.
  intros [l Hrep].
  destruct (evictUntilWithinBudget_rep _ _ Hrep)
    as (l1 & l2 & _ & [_ Hrep' Hm Hfin _ _ _ _]).
  split; [done|]. intros Hpos. destruct Hfin as [Hle| ->]; [done|].
  destruct (store_nil_rep _ Hrep') as [Hs _].
  by rewrite (rep_used _ _ Hrep'), Hs.
Qed.

Lemma step_bounds c o :
  cache_inv c →
  maxBytes (step c o) = maxBytes c
  ∧ (0 ≤ maxBytes c → usedBytes c ≤ maxBytes c →
     usedBytes (step c o) ≤ maxBytes c).
Proof.
  intros Hc. destruct o as [now ns key v opts|now ns key|now ns key|ns key|ns| |now];
    simpl.
  - destruct (set_bounds now ns key v opts c Hc). auto.
  - unfold get. destruct (Map.get _ (store c)) as [e|] eqn:Hg; [|done].
    destruct (expired now e).
    + rewrite (delete_hit _ _ _ e) by done. cbn [snd].
      pose proof (remove_entry_bounds _ _ _ Hc Hg).
      rewrite remove_entry_maxBytes. split; [done|lia].
    + by destruct (LRUList.moveToFront _ _ _).
  - unfold has. destruct (Map.get _ (store c)) as [e|] eqn:Hg; [|done].
    destruct (expired now e); [|done].
    rewrite (delete_hit _ _ _ e) by done. cbn [snd].
    pose proof (remove_entry_bounds _ _ _ Hc Hg).
    rewrite remove_entry_maxBytes. split; [done|lia].
  - unfold delete. destruct (Map.get _ (store c)) as [e|] eqn:Hg; [|done].
    cbn [snd]. pose proof (remove_entry_bounds _ _ _ Hc Hg).
    rewrite remove_entry_maxBytes. split; [done|lia].
  - rewrite clearNamespace_purge by done. cbn [snd].
    destruct (purge_bounds (in_namespace ns) c Hc). split; [done|lia].
  - destruct (evict_bounds c Hc). auto.
  - rewrite sweepExpired_purge.
    destruct (purge_bounds (λ _ e, expired now e) c Hc). split; [done|lia].
Qed.
End capacity_facts.

(** X7: the capacity bound.  In every reachable state [usedBytes] is not
    negative, it does not exceed a budget that is not negative, the number
    of keys that [stats] reports is the length of the recency list, and no
    operation changes [maxBytes]. *)
Theorem capacity_bound (c : InMemoryCache) :
  reachable c →
  0 ≤ usedBytes c
  ∧ (0 ≤ maxBytes c → usedBytes c ≤ maxBytes c)
  ∧ Stats.keys (stats c) = length (lru_keys c)
  ∧ ∀ o, maxBytes (step c o) = maxBytes c.
Proof.
  intros Hc. split; [by apply inv_used_nonneg, reachable_inv|].
  split; [|split].
  - induction Hc as [mb|c o Hc IH]; [done|].
    destruct (step_bounds c o (reachable_inv _ Hc)) as [Hm Hu].
    rewrite Hm. auto.
  - simpl. unfold Map.size.
    rewrite (Permutation_length (lru_keys_perm _ (reachable_inv _ Hc))).
    unfold Map.keys. by rewrite length_fmap.
  - intros o. by apply step_bounds, reachable_inv.
Qed.

Lemma capacity_bound_witness :
  let c := step (step (step (new (Some 10))
                   (OpSet 5 "n" "a" (VString "12345") (mkOptions (Some 20))))
                   (OpSet 6 "n" "b" (VString "1234567") (mkOptions None)))
                   (OpHas 7 "n" "a") in
  0 ≤ usedBytes c
  ∧ (0 ≤ maxBytes c → usedBytes c ≤ maxBytes c)
  ∧ Stats.keys (stats c) = length (lru_keys c)
  ∧ ∀ o, maxBytes (step c o) = maxBytes c.
Proof. apply capacity_bound. repeat constructor. Defined.

(** ** The recency list read from its tail *)

Section back_facts.
Import Heap LRUList.
Implicit Types (h : Heap) (q : LRUList) (p x : ptr) (l : list ptr).

Lemma walk_back_seg (fuel : nat) h l nx :
  seg h None l nx → (length l ≤ fuel)%nat →
  walk_back fuel h (last l) = reverse l.
Proof.
  revert l nx. induction fuel as [|fuel IH]; intros l nx.
  - destruct l; simpl; [done|lia].
  - destruct l as [|p l _] using rev_ind; [done|].
    rewrite seg_app. simpl. intros [Hs1 [(nd & E & Hpv & _) _]].
    rewrite length_app. simpl. intros Hlen.
    rewrite last_snoc, reverse_snoc. simpl.
    rewrite (deref_lookup _ _ _ E), Hpv, last_or_None.
    f_equal. apply (IH _ (Some p)); [done|lia].
Qed.

Lemma dll_nodes_back h q l : dll h q l → nodes_back h q = reverse l.
Proof.
  intros Hd. pose proof (dll_length _ _ _ Hd).
  destruct Hd as (_ & _ & Htl & Hseg). unfold nodes_back. rewrite Htl.
  by apply (walk_back_seg _ _ _ None).
Qed.

Lemma dll_lt h q l x : dll h q l → x ∈ l → (x < length h)%nat.
Proof.
  intros (_ & _ & _ & Hseg) Hx.
  destruct (seg_lookup _ _ _ _ _ Hseg Hx) as [nd E].
  by apply lookup_lt_Some in E.
Qed.

Lemma lookup_unlinked h p :
  (∃ nd, h !! p = Some nd ∧ prev nd = None ∧ next nd = None) → unlinked h p.
Proof.
  intros (nd & E & ? & ?). unfold unlinked. by rewrite (deref_lookup _ _ _ E).
Qed.

Lemma write_prev_same h p nd :
  h !! p = Some nd → write_prev p (prev nd) h = h.
Proof.
  intros E. apply list_eq. intros i. unfold write_prev.
  rewrite list_lookup_alter. case_decide; [|done]. subst.
  rewrite E. by destruct nd.
Qed.

Lemma write_next_same h p nd :
  h !! p = Some nd → write_next p (next nd) h = h.
Proof.
  intros E. apply list_eq. intros i. unfold write_next.
  rewrite list_lookup_alter. case_decide; [|done]. subst.
  rewrite E. by destruct nd.
Qed.

(** Detaching a node that stands alone and is neither head nor tail. *)
Lemma detach_unlinked h q p nd :
  h !! p = Some nd → prev nd = None → next nd = None →
  head q ≠ Some p → tail q ≠ Some p →
  detach p h q = (h, q).
Proof.
  intros E Hpv Hnx Hh Ht. unfold detach.
  rewrite (deref_lookup _ _ _ E), Hpv. cbv zeta.
  rewrite ?(deref_lookup _ _ _ E), ?Hpv, ?Hnx.
  destruct (decide (head q = Some p)) as [|_]; [done|].
  destruct (decide (tail q = Some p)) as [|_]; [done|].
  assert (Hp : write_prev p None h = h)
    by (rewrite <-Hpv; by apply write_prev_same).
  assert (Hn : write_next p None h = h)
    by (rewrite <-Hnx; by apply write_next_same).
  by rewrite Hp, Hn.
Qed.
End back_facts.

(** A concrete list on a concrete heap. *)
Ltac concrete_dll :=
  split; [apply (bool_decide_unpack _); by vm_compute|];
  do 2 (split; [reflexivity|]); simpl;
  repeat (split; [eexists; split; [reflexivity|by split]|]); exact I.

(** * Further properties of the recency list *)

(** X8: the two directions of the recency list agree.  In every reachable
    state the walk from the head along the [next] links meets no node
    twice, it starts at [head] and ends at [tail], and the walk from the
    tail along the [prev] links meets the same nodes in the reverse
    order. *)
Theorem recency_list_linked_both_ways (c : InMemoryCache) :
  reachable c →
  let l := LRUList.nodes (heap c) (lru c) in
  NoDup l
  ∧ head (lru c) = hd_error l
  ∧ tail (lru c) = last l
  ∧ nodes_back (heap c) (lru c) = reverse l.
Proof.
  intros [l0 Hrep]%reachable_inv l. subst l.
  pose proof (rep_dll _ _ Hrep) as Hd.
  rewrite (dll_nodes _ _ _ Hd), (dll_nodes_back _ _ _ Hd).
  by destruct Hd as (? & ? & ? & _).
Qed.

Lemma recency_list_linked_both_ways_witness :
  let c := step (step (step (step (new (Some 10))
                   (OpSet 5 "n" "a" (VString "123") (mkOptions (Some 20))))
                   (OpSet 6 "n" "b" (VString "456") (mkOptions None)))
                   (OpSet 7 "n" "c" (VString "789") (mkOptions None)))
                   (OpGet 8 "n" "b") in
  let l := LRUList.nodes (heap c) (lru c) in
  NoDup l
  ∧ head (lru c) = hd_error l
  ∧ tail (lru c) = last l
  ∧ nodes_back (heap c) (lru c) = reverse l.
Proof. apply recency_list_linked_both_ways. repeat constructor. Defined.

(** X9: [moveToFront] on a well-formed list moves the node to the head and
    keeps the others in their order, in both directions; it changes no
    key, and it changes nothing at all when the node is the head
    already. *)
Theorem moveToFront_reorders (h : Heap) (q : LRUList) (l1 l2 : list ptr) (p : ptr) :
  dll h q (l1 ++ p :: l2) →
  let r := LRUList.moveToFront p h q in
  dll r.1 r.2 (p :: l1 ++ l2)
  ∧ LRUList.nodes r.1 r.2 = p :: l1 ++ l2
  ∧ nodes_back r.1 r.2 = reverse (p :: l1 ++ l2)
  ∧ (∀ x, key_of r.1 x = key_of h x)
  ∧ (l1 = [] → r = (h, q)).
Proof.
  intros Hd r. pose proof (moveToFront_spec _ _ _ _ _ Hd) as Hd'. fold r in Hd'.
  split; [done|]. split; [by apply dll_nodes|].
  split; [by apply dll_nodes_back|]. split.
  - intros x. apply moveToFront_key.
  - intros ->. subst r. unfold LRUList.moveToFront.
    destruct Hd as (_ & Hhd & _). by rewrite decide_True.
Qed.

Lemma moveToFront_reorders_witness :
  let h := [mkNode "a" None (Some 1%nat); mkNode "b" (Some 0%nat) (Some 2%nat);
            mkNode "c" (Some 1%nat) None] in
  let q := mkList (Some 0%nat) (Some 2%nat) in
  let r := LRUList.moveToFront 2%nat h q in
  LRUList.nodes r.1 r.2 = [2; 0; 1]%nat
  ∧ nodes_back r.1 r.2 = [1; 0; 2]%nat.
Proof.
  intros h q r.
  destruct (moveToFront_reorders h q [0; 1]%nat [] 2%nat) as (_ & H1 & H2 & _).
  - concrete_dll.
  - by split.
Defined.

(** X10: [pushFront] of a node just created puts it at the head of a
    well-formed list, in front of the nodes that were there, in their
    order; on an empty list the node becomes head and tail, otherwise the
    tail stays. *)
Theorem pushFront_new_node (h : Heap) (q : LRUList) (l : list ptr) (k : string) :
  dll h q l →
  let a := Heap.alloc k h in
  let r := LRUList.pushFront a.1 a.2 q in
  dll r.1 r.2 (a.1 :: l)
  ∧ LRUList.nodes r.1 r.2 = a.1 :: l
  ∧ nodes_back r.1 r.2 = reverse l ++ [a.1]
  ∧ LRUList.keys r.1 r.2 = k :: LRUList.keys h q
  ∧ head r.2 = Some a.1
  ∧ tail r.2 = Some (default a.1 (tail q)).
Proof.
  intros Hd a r. subst a. cbn [Heap.alloc fst snd] in *.
  set (p := length h) in *. set (h1 := h ++ [mkNode k None None]) in *.
  assert (Hp : p ∉ l).
  { intros Hx%(dll_lt _ _ _ _ Hd). subst p. lia. }
  assert (E : h1 !! p = Some (mkNode k None None)).
  { subst h1 p. by rewrite lookup_app_r, Nat.sub_diag by lia. }
  assert (Hf : ∀ x, x ∈ l → h1 !! x = h !! x).
  { intros x Hx%(dll_lt _ _ _ _ Hd). subst h1. by rewrite lookup_app_l. }
  assert (Hd1 : dll h1 q l).
  { destruct Hd as (? & ? & ? & Hseg). repeat split; try done.
    by apply (seg_frame h). }
  assert (Hd' : dll r.1 r.2 (p :: l)).
  { apply pushFront_spec; [done|done|by eexists]. }
  split; [done|]. split; [by apply dll_nodes|].
  split; [by rewrite (dll_nodes_back _ _ _ Hd'), reverse_cons|].
  split; [|split].
  - unfold LRUList.keys.
    rewrite (dll_nodes _ _ _ Hd'), (dll_nodes _ _ _ Hd), fmap_cons.
    subst r. rewrite pushFront_key, (deref_lookup _ _ _ E). f_equal.
    apply list_fmap_ext. intros i x Hx%list_elem_of_lookup_2.
    rewrite pushFront_key. unfold Heap.deref. by rewrite Hf.
  - by destruct Hd' as (_ & -> & _).
  - destruct Hd' as (_ & _ & -> & _). destruct Hd as (_ & _ & -> & _).
    rewrite last_cons. by destruct (last l).
Qed.

Lemma pushFront_new_node_witness :
  let h := [mkNode "a" None (Some 1%nat); mkNode "b" (Some 0%nat) None] in
  let q := mkList (Some 0%nat) (Some 1%nat) in
  let r := LRUList.pushFront 2%nat (h ++ [mkNode "c" None None]) q in
  LRUList.nodes r.1 r.2 = [2; 0; 1]%nat
  ∧ LRUList.keys r.1 r.2 = "c" :: LRUList.keys h q.
Proof.
  intros h q r.
  destruct (pushFront_new_node h q [0; 1]%nat "c") as (_ & H1 & _ & H2 & _).
  - concrete_dll.
  - by split.
Defined.

(** X11: [popBack] takes the least recently used node.  On a well-formed
    list it returns the tail, or nothing when the list is empty (which it
    then leaves as it is); the other nodes stay in their order, and the
    node returned has no neighbour left. *)
Theorem popBack_takes_tail (h : Heap) (q : LRUList) (l : list ptr) :
  dll h q l →
  let r := LRUList.popBack h q in
  r.1 = last l
  ∧ dll r.2.1 r.2.2 (removelast l)
  ∧ LRUList.nodes r.2.1 r.2.2 = removelast l
  ∧ (∀ p, r.1 = Some p → unlinked r.2.1 p)
  ∧ (l = [] → r = (None, (h, q))).
Proof.
  intros Hd r. subst r. destruct l as [|p l _] using rev_ind.
  - rewrite (popBack_nil _ _ Hd). cbn [fst snd removelast].
    split; [done|]. split; [done|]. split; [by apply dll_nodes|]. by split.
  - rewrite (popBack_snoc _ _ _ _ Hd). cbn [fst snd].
    rewrite removelast_last, last_snoc.
    destruct (detach_spec _ _ _ _ _ Hd) as [Hd' Hun]. rewrite app_nil_r in Hd'.
    split; [done|]. split; [done|]. split; [by apply dll_nodes|]. split.
    + intros ? [= <-]. by apply lookup_unlinked.
    + intros Hnil. by destruct l.
Qed.

Lemma popBack_takes_tail_witness :
  let h := [mkNode "a" None (Some 1%nat); mkNode "b" (Some 0%nat) (Some 2%nat);
            mkNode "c" (Some 1%nat) None] in
  let q := mkList (Some 0%nat) (Some 2%nat) in
  let r := LRUList.popBack h q in
  r.1 = Some 2%nat ∧ LRUList.nodes r.2.1 r.2.2 = [0; 1]%nat.
Proof.
  intros h q r.
  destruct (popBack_takes_tail h q [0; 1; 2]%nat) as (H1 & _ & H2 & _).
  - concrete_dll.
  - by split.
Defined.

(** X12: [detach] takes one node out of a well-formed list.  The others
    stay in their order in both directions, the node is left without
    neighbours, no key changes, and detaching the same node once more
    changes nothing. *)
Theorem detach_takes_out (h : Heap) (q : LRUList) (l1 l2 : list ptr) (p : ptr) :
  dll h q (l1 ++ p :: l2) →
  let r := LRUList.detach p h q in
  dll r.1 r.2 (l1 ++ l2)
  ∧ LRUList.nodes r.1 r.2 = l1 ++ l2
  ∧ nodes_back r.1 r.2 = reverse (l1 ++ l2)
  ∧ unlinked r.1 p
  ∧ (∀ x, key_of r.1 x = key_of h x)
  ∧ LRUList.detach p r.1 r.2 = r.
Proof.
  intros Hd r. destruct (detach_spec _ _ _ _ _ Hd) as [Hd' Hun]. fold r in Hd', Hun.
  split; [done|]. split; [by apply dll_nodes|].
  split; [by apply dll_nodes_back|]. split; [by apply lookup_unlinked|].
  split; [intros x; apply detach_key|].
  destruct Hun as (nd & E & Hpv & Hnx).
  assert (Hp : p ∉ l1 ++ l2) by (destruct Hd as [Hnd _]; by apply NoDup_middle).
  destruct Hd' as (_ & Hhd & Htl & _).
  rewrite (detach_unlinked _ _ _ nd); [by destruct r|done|done|done| |].
  - rewrite Hhd. by intros ?%head_elem_of.
  - rewrite Htl. by intros ?%last_Some_elem_of.
Qed.

Lemma detach_takes_out_witness :
  let h := [mkNode "a" None (Some 1%nat); mkNode "b" (Some 0%nat) (Some 2%nat);
            mkNode "c" (Some 1%nat) None] in
  let q := mkList (Some 0%nat) (Some 2%nat) in
  let r := LRUList.detach 1%nat h q in
  LRUList.nodes r.1 r.2 = [0; 2]%nat ∧ nodes_back r.1 r.2 = [2; 0]%nat
  ∧ unlinked r.1 1%nat.
Proof.
  intros h q r.
  destruct (detach_takes_out h q [0]%nat [2]%nat 1%nat) as (_ & H1 & H2 & H3 & _).
  - concrete_dll.
  - by split.
Defined.

(** * Further properties of the engine, continued *)

Section locality_facts.
Implicit Types (c : InMemoryCache) (e : CacheEntry) (k fk : string).

Lemma set_entry_usedBytes now ns key v opts c :
  usedBytes (set_entry now ns key v opts c)
  = usedBytes c + byteLength v
    - from_option size 0 (Map.get (makeFullKey ns key) (store c)).
Proof.
  unfold set_entry, byteLength.
  destruct (Map.get _ (store c)) as [e|]; cbn [Heap.alloc from_option].
  - destruct (LRUList.moveToFront _ _ _). simpl. lia.
  - destruct (LRUList.pushFront _ _ _). simpl. lia.
Qed.

Lemma filter_ne_idemp (fk : string) (l : list string) :
  filter (λ k, k ≠ fk) (filter (λ k, k ≠ fk) l) = filter (λ k, k ≠ fk) l.
Proof. apply filter_all. by intros x [? _]%list_elem_of_filter. Qed.

Lemma filter_ne_cons_eq (fk : string) (l : list string) :
  filter (λ k, k ≠ fk) (fk :: l) = filter (λ k, k ≠ fk) l.
Proof. rewrite filter_cons. by rewrite decide_False by (by intros []). Qed.

Lemma same_elsewhere_refl fk c : same_elsewhere fk c c.
Proof. by repeat split. Qed.

Lemma same_elsewhere_remove fk c e :
  cache_inv c → Map.get fk (store c) = Some e →
  same_elsewhere fk c (remove_entry fk e c).
Proof.
  intros Hc Hg. split; [|split].
  - intros k Hk. by rewrite remove_entry_store, get_delete, decide_False.
  - by rewrite remove_entry_lru_keys, filter_ne_idemp.
  - apply remove_entry_maxBytes.
Qed.

Lemma same_elsewhere_promote fk c e :
  cache_inv c → Map.get fk (store c) = Some e →
  same_elsewhere fk c
    (mkCache (store c)
       (LRUList.moveToFront (lruNode e) (heap c) (lru c)).1
       (LRUList.moveToFront (lruNode e) (heap c) (lru c)).2
       (maxBytes c) (usedBytes c)).
Proof.
  intros Hc Hg. split; [done|]. split; [|done].
  by rewrite (promote_lru_keys _ fk), filter_ne_cons_eq, filter_ne_idemp.
Qed.

Lemma reachable_within c :
  reachable c → 0 ≤ maxBytes c → usedBytes c ≤ maxBytes c.
Proof.
  induction 1 as [mb|c o Hc IH]; [done|].
  destruct (step_bounds c o (reachable_inv _ Hc)) as [Hm Hu].
  rewrite Hm. auto.
Qed.
End locality_facts.

(** X13: a write that stays within the budget is an update of one key.
    When the bytes in use, less the size of the entry the key had, plus
    the size of the new value do not exceed [maxBytes], [set] evicts
    nothing: [usedBytes] changes by exactly that difference, the key holds
    the new value, a new key is added at the end of the table and a present
    one keeps its place, every other key keeps its entry, and the key heads
    the recency list in front of the others in their order. *)
Theorem set_within_budget (c : InMemoryCache) now ns key v opts :
  reachable c →
  let fk := makeFullKey ns key in
  let old := from_option size 0 (Map.get fk (store c)) in
  usedBytes c - old + byteLength v ≤ maxBytes c →
  let c' := set now ns key v opts c in
  usedBytes c' = usedBytes c - old + byteLength v
  ∧ (∃ e, Map.get fk (store c') = Some e
          ∧ value e = normalize v ∧ size e = byteLength v)
  ∧ Map.keys (store c')
    = match Map.get fk (store c) with
      | Some _ => Map.keys (store c)
      | None => Map.keys (store c) ++ [fk]
      end
  ∧ same_elsewhere fk c c'
  ∧ lru_keys c' = fk :: filter (λ k, k ≠ fk) (lru_keys c).
Proof.
  intros Hc%reachable_inv fk old Hfit c'. pose proof Hc as [l Hrep].
  destruct (set_entry_rep now ns key v opts c l Hrep) as (p & e & Hw).
  pose proof (written_get _ _ _ _ _ _ _ _ _ Hw) as Hg.
  pose proof (set_entry_usedBytes now ns key v opts c) as Hu.
  pose proof (set_entry_lru_keys now ns key v opts c Hc) as Hl.
  fold fk old in Hu, Hl, Hg.
  destruct Hw as [Hrep1 Hst _ Hval _ Hmax _ _]. fold fk in Hst.
  assert (Heq : c' = set_entry now ns key v opts c).
  { subst c'. unfold set. apply evictUntilWithinBudget_within. lia. }
  rewrite Heq. split; [lia|]. split; [|split; [|split; [|done]]].
  - exists e. split; [done|]. split; [done|].
    rewrite (rep_size _ _ Hrep1 _ _ Hg). unfold byteLength. by rewrite Hval.
  - rewrite Hst. destruct (Map.get fk (store c)) as [e0|] eqn:Hg0.
    + by apply keys_set_present.
    + rewrite set_absent by done. unfold Map.keys. by rewrite fmap_app.
  - split; [|split; [|done]].
    + intros k Hk. by rewrite Hst, get_set, decide_False.
    + by rewrite Hl, filter_ne_cons_eq, filter_ne_idemp.
Qed.

Lemma set_within_budget_witness :
  let c := set 1 "n" "a" (VString "12345") (mkOptions None) (new (Some 10)) in
  let c' := set 2 "n" "a" (VString "1234567890") (mkOptions None) c in
  usedBytes c' = 10 ∧ Map.keys (store c') = ["n:a"] ∧ lru_keys c' = ["n:a"].
Proof.
  intros c c'.
  assert (Hc : reachable c).
  { apply (reachable_step _ (OpSet _ _ _ _ _)), reachable_new. }
  destruct (set_within_budget c 2 "n" "a" (VString "1234567890")
              (mkOptions None) Hc) as (H1 & _ & H2 & _ & H3); [by vm_compute|].
  subst c'. rewrite H1, H2, H3. by vm_compute.
Defined.

(** X14: [get], [has] and [delete] act on their key only.  Whatever they
    find (nothing, an expired entry that they remove, a live entry), every
    other key keeps its entry, the other keys keep their relative order in
    the recency list, and [usedBytes] does not grow. *)
Theorem lookups_act_on_one_key (c : InMemoryCache) (now : N) (ns key : string) :
  reachable c →
  let fk := makeFullKey ns key in
  (same_elsewhere fk c (get now ns key c).2
   ∧ usedBytes (get now ns key c).2 ≤ usedBytes c)
  ∧ (same_elsewhere fk c (has now ns key c).2
     ∧ usedBytes (has now ns key c).2 ≤ usedBytes c)
  ∧ (same_elsewhere fk c (delete ns key c).2
     ∧ usedBytes (delete ns key c).2 ≤ usedBytes c).
Proof.
  intros Hc%reachable_inv fk.
  assert (Hdel : same_elsewhere fk c (delete ns key c).2
                 ∧ usedBytes (delete ns key c).2 ≤ usedBytes c).
  { unfold delete. fold fk.
    destruct (Map.get fk (store c)) as [e|] eqn:Hg; cbn [snd].
    - split; [by apply same_elsewhere_remove|by apply remove_entry_bounds].
    - split; [apply same_elsewhere_refl|done]. }
  split; [|split; [|done]].
  - unfold get. fold fk.
    destruct (Map.get fk (store c)) as [e|] eqn:Hg;
      [|split; [apply same_elsewhere_refl|done]].
    destruct (expired now e); [done|].
    pose proof (same_elsewhere_promote fk c e Hc Hg) as Hp.
    by destruct (LRUList.moveToFront _ _ _).
  - unfold has. fold fk.
    destruct (Map.get fk (store c)) as [e|] eqn:Hg;
      [|split; [apply same_elsewhere_refl|done]].
    destruct (expired now e); [done|].
    split; [apply same_elsewhere_refl|done].
Qed.

Lemma lookups_act_on_one_key_witness :
  let c := set 6 "n" "b" (VString "xy") (mkOptions None)
             (set 5 "n" "a" (VString "12345") (mkOptions (Some 20)) (new None)) in
  same_elsewhere "n:a" c (get 30 "n" "a" c).2
  ∧ same_elsewhere "n:b" c (get 30 "n" "b" c).2.
Proof.
  intros c.
  assert (Hc : reachable c).
  { do 2 apply (reachable_step _ (OpSet _ _ _ _ _)). apply reachable_new. }
  split.
  - apply (lookups_act_on_one_key c 30 "n" "a" Hc).
  - apply (lookups_act_on_one_key c 30 "n" "b" Hc).
Defined.

Section sweep_facts.
Implicit Types (c : InMemoryCache) (e : CacheEntry) (k : string).

Lemma purge_none P (m : list (string * CacheEntry)) c :
  (∀ k e, (k, e) ∈ m → P k e = false) → purge P m c = c.
Proof.
  unfold purge. revert c. induction m as [|[k e] m IH]; intros c Hm; [done|].
  simpl. rewrite (Hm k e) by apply list_elem_of_here.
  apply IH. intros k' e' Hin. apply Hm. by apply list_elem_of_further.
Qed.

Lemma purged_none P (m : list (string * CacheEntry)) k e :
  (k, e) ∈ purged P m → P k e = false.
Proof. by intros [? _]%list_elem_of_filter. Qed.

Lemma purge_twice P c :
  cache_inv c →
  purge P (store (purge P (store c) c)) (purge P (store c) c)
  = purge P (store c) c.
Proof.
  intros [l Hrep].
  destruct (purge_rep P (store c) c l [] Hrep) as (_ & Hs & _); [done|].
  apply purge_none. intros k e. rewrite Hs. apply purged_none.
Qed.

Lemma filter_split_length {A} (f : A → bool) (l : list A) :
  (length (filter (λ x, f x = true) l)
   + length (filter (λ x, f x = false) l))%nat = length l.
Proof.
  induction l as [|x l IH]; [done|]. rewrite !filter_cons.
  destruct (f x); repeat case_decide; try done; simpl; lia.
Qed.

Lemma filter_purged_nil P (m : list (string * CacheEntry)) :
  filter (λ kv, P kv.1 kv.2 = true) (purged P m) = [].
Proof.
  unfold purged. induction m as [|[k e] m IH]; [done|].
  rewrite filter_cons. simpl. destruct (P k e) eqn:HP.
  - by rewrite decide_False.
  - rewrite decide_True by done. rewrite filter_cons. simpl.
    by rewrite HP, decide_False.
Qed.

(** An entry that has expired stays expired. *)
Lemma expired_mono now now' e :
  (now ≤ now')%N → expired now e = true → expired now' e = true.
Proof. rewrite !expired_true. lia. Qed.

Lemma evict_empty c :
  lru c = LRUList.empty → evictUntilWithinBudget c = c.
Proof.
  intros Hl. unfold evictUntilWithinBudget. rewrite evict_loop_unfold.
  unfold LRUList.popBack. rewrite Hl. simpl. by destruct (_ >? _).
Qed.
End sweep_facts.

(** X15: a sweep pass leaves nothing to sweep.  After [sweepExpired] at
    time [now], a second pass at that time changes nothing, and a [has] or
    a [get] at a time up to [now] finds every entry of the table: none of
    them removes an entry. *)
Theorem sweepExpired_leaves_live_entries (c : InMemoryCache) (now : N) :
  reachable c →
  let c' := sweepExpired now c in
  sweepExpired now c' = c'
  ∧ ∀ now' ns key, (now' ≤ now)%N →
      has now' ns key c'
      = (bool_decide (is_Some (Map.get (makeFullKey ns key) (store c'))), c')
      ∧ (get now' ns key c').1
        = value <$> Map.get (makeFullKey ns key) (store c')
      ∧ store (get now' ns key c').2 = store c'.
Proof.
  intros Hc%reachable_inv c'. subst c'. rewrite !sweepExpired_purge.
  split; [by apply purge_twice|].
  intros now' ns key Hle. pose proof Hc as [l Hrep].
  destruct (purge_rep (λ _ e, expired now e) (store c) c l [] Hrep)
    as (_ & Hs & _); [done|].
  simpl in Hs. set (c' := purge _ (store c) c) in *.
  unfold has, get.
  destruct (Map.get _ (store c')) as [e|] eqn:Hg; [|done].
  assert (Hx : expired now' e = false).
  { apply get_Some_elem in Hg. rewrite Hs in Hg.
    apply purged_none in Hg. simpl in Hg.
    destruct (expired now' e) eqn:He; [|done].
    by rewrite (expired_mono now' now) in Hg. }
  rewrite Hx. split; [by rewrite bool_decide_true|].
  by destruct (LRUList.moveToFront _ _ _).
Qed.

Lemma sweepExpired_leaves_live_entries_witness :
  let c := set 6 "n" "b" (VString "xy") (mkOptions (Some 30))
             (set 5 "n" "a" (VString "12345") (mkOptions (Some 20)) (new None)) in
  let c' := sweepExpired 25 c in
  sweepExpired 25 c' = c' ∧ has 25 "n" "b" c' = (true, c').
Proof.
  intros c c'.
  assert (Hc : reachable c).
  { do 2 apply (reachable_step _ (OpSet _ _ _ _ _)). apply reachable_new. }
  destruct (sweepExpired_leaves_live_entries c 25 Hc) as [H1 H2].
  split; [done|]. destruct (H2 25%N "n" "b") as [H3 _]; [done|].
  subst c'. rewrite H3. by vm_compute.
Defined.

(** X16: [clearNamespace(ns)] empties the namespace.  Whatever the
    namespace and the keys hold, after the call no key of [ns] is in the
    table: [has], [get] and [delete] miss it and change nothing; the
    number returned is the number of entries the table has lost, and a
    second call returns 0 and changes nothing. *)
Theorem clearNamespace_empties_namespace (c : InMemoryCache) (ns : string) :
  reachable c →
  let r := clearNamespace ns c in
  (∀ now key, Map.get (makeFullKey ns key) (store r.2) = None
              ∧ has now ns key r.2 = (false, r.2)
              ∧ get now ns key r.2 = (None, r.2)
              ∧ delete ns key r.2 = (false, r.2))
  ∧ (r.1 + Stats.keys (stats r.2))%nat = Stats.keys (stats c)
  ∧ clearNamespace ns r.2 = (0%nat, r.2).
Proof.
  intros Hc%reachable_inv r.
  pose proof (clearNamespace_inv ns c Hc) as Hc'. fold r in Hc'.
  pose proof Hc as [l Hrep].
  destruct (purge_rep (in_namespace ns) (store c) c l [] Hrep)
    as (_ & Hs & _); [done|].
  simpl in Hs.
  assert (Hr : r = (length (filter (λ kv, in_namespace ns kv.1 kv.2 = true)
                              (store c)),
                    purge (in_namespace ns) (store c) c))
    by by apply clearNamespace_purge.
  assert (Hst : store r.2 = purged (in_namespace ns) (store c))
    by by rewrite Hr.
  split; [|split].
  - intros now key.
    assert (Hg : Map.get (makeFullKey ns key) (store r.2) = None).
    { rewrite Hst, get_purged by apply Hrep.
      destruct (Map.get _ (store c)); [|done]. by rewrite in_namespace_same. }
    split; [done|]. unfold has, get, delete. by rewrite Hg.
  - simpl. unfold Map.size. rewrite Hst, Hr. cbn [fst]. unfold purged.
    apply (filter_split_length (λ kv, in_namespace ns kv.1 kv.2)).
  - rewrite (clearNamespace_purge ns r.2) by done.
    rewrite Hst, filter_purged_nil. f_equal.
    apply purge_none. intros k e. apply purged_none.
Qed.

Lemma clearNamespace_empties_namespace_witness :
  let c := set 3 "a:b" "k" (VString "3") (mkOptions None)
             (set 2 "a" "k" (VString "22") (mkOptions None)
                (set 1 "b" "j" (VString "1") (mkOptions None) (new None))) in
  let r := clearNamespace "a" c in
  has 4 "a" "k" r.2 = (false, r.2)
  ∧ (r.1 + Stats.keys (stats r.2))%nat = 3%nat
  ∧ clearNamespace "a" r.2 = (0%nat, r.2).
Proof.
  intros c r.
  assert (Hc : reachable c).
  { do 3 apply (reachable_step _ (OpSet _ _ _ _ _)). apply reachable_new. }
  destruct (clearNamespace_empties_namespace c "a" Hc) as (H1 & H2 & H3).
  split; [apply (H1 4%N "k")|]. by split.
Defined.

(** X17: [has] answers as [get] does.  At the same instant and on the same
    state, [has] is true exactly when [get] returns a buffer; when they
    find nothing they leave the same state behind (the expired entry, if
    there was one, removed); when [has] is true it leaves the state as it
    was. *)
Theorem has_agrees_with_get :
  ∀ (c : InMemoryCache) (now : N) (ns key : string),
    (has now ns key c).1 = bool_decide (is_Some (get now ns key c).1)
    ∧ ((has now ns key c).1 = false → (has now ns key c).2 = (get now ns key c).2)
    ∧ ((has now ns key c).1 = true → (has now ns key c).2 = c).
Proof.
  intros c now ns key. unfold has, get.
  destruct (Map.get _ (store c)) as [e|]; [|done].
  destruct (expired now e); [done|].
  by destruct (LRUList.moveToFront _ _ _).
Qed.

(** X18: expiry is final.  An entry that a lookup finds at some instant is
    found by a lookup of the same state at every earlier instant: what
    [has] or [get] reports absent at [now] is absent at every later
    time. *)
Theorem expiry_is_monotone (c : InMemoryCache) (now now' : N) (ns key : string) :
  (now ≤ now')%N →
  ((has now' ns key c).1 = true → (has now ns key c).1 = true)
  ∧ ((get now' ns key c).1 = (get now ns key c).1
     ∨ (get now' ns key c).1 = None).
Proof.
  intros Hle. unfold has, get.
  destruct (Map.get _ (store c)) as [e|]; [|by split; [|left]].
  destruct (expired now e) eqn:He.
  - rewrite (expired_mono now now') by done. by split; [|left].
  - destruct (expired now' e); [by split; [|right]|].
    split; [done|]. left. by destruct (LRUList.moveToFront _ _ _).
Qed.

Lemma expiry_is_monotone_witness :
  let c := set 5 "n" "a" (VString "12345") (mkOptions (Some 20)) (new None) in
  (get 30 "n" "a" c).1 = (get 10 "n" "a" c).1 ∨ (get 30 "n" "a" c).1 = None.
Proof. intros c. by apply (expiry_is_monotone c 10 30 "n" "a"). Defined.

(** X19: budget enforcement has nothing to do twice.  Running
    [evictUntilWithinBudget] on the state it returns changes nothing, and
    on a reachable state under a budget that is not negative it changes
    nothing in the first place. *)
Theorem budget_enforcement_idempotent (c : InMemoryCache) :
  reachable c →
  evictUntilWithinBudget (evictUntilWithinBudget c) = evictUntilWithinBudget c
  ∧ (0 ≤ maxBytes c → evictUntilWithinBudget c = c).
Proof.
  intros Hc. split.
  - destruct (evictUntilWithinBudget_final c (reachable_inv _ Hc))
      as [_ [Hle|[_ Hl]]].
    + by apply evictUntilWithinBudget_within.
    + by apply evict_empty.
  - intros Hpos. by apply evictUntilWithinBudget_within, reachable_within.
Qed.

Lemma budget_enforcement_idempotent_witness :
  let c := set 1 "n" "b" (VString "12345") (mkOptions None)
             (set 0 "n" "a" (VString "12345") (mkOptions None) (new (Some 7))) in
  evictUntilWithinBudget (evictUntilWithinBudget c) = evictUntilWithinBudget c
  ∧ (0 ≤ maxBytes c → evictUntilWithinBudget c = c).
Proof.
  apply budget_enforcement_idempotent.
  do 2 apply (reachable_step _ (OpSet _ _ _ _ _)). apply reachable_new.
Defined.

Section recency_facts.
Implicit Types (c : InMemoryCache) (e : CacheEntry) (k : string).

(** The entry at the head of the recency list outlives a write of another
    key that fits the budget beside it. *)
Lemma head_survives c now ns key v opts k e :
  cache_inv c →
  hd_error (lru_keys c) = Some k →
  Map.get k (store c) = Some e →
  k ≠ makeFullKey ns key →
  size e + byteLength v ≤ maxBytes c →
  Map.get k (store (set now ns key v opts c)) = Some e.
Proof.
  intros [l Hrep] Hhd Hg Hne Hfit.
  rewrite (lru_keys_rep _ _ Hrep) in Hhd.
  destruct l as [|p0 l']; [done|]. simpl in Hhd. injection Hhd as Hk0.
  destruct (rep_node _ _ Hrep p0) as (e0 & Hg0 & Hn0); [by left|].
  rewrite Hk0, Hg in Hg0. injection Hg0 as <-.
  assert (Hsz : 0 ≤ size e).
  { apply (rep_entry_size c _ k _ Hrep). by apply get_Some_elem. }
  destruct (set_entry_rep now ns key v opts c _ Hrep) as (p & e1 & Hw).
  pose proof (written_get _ _ _ _ _ _ _ _ _ Hw) as Hg1.
  destruct Hw as [Hrep1 Hst Hnode Hval _ Hmax Hkey Hold].
  assert (Hp : p0 ≠ p).
  { intros ->. apply Hne. rewrite <-Hk0. apply Hold; [by left|done]. }
  rewrite filter_cons, decide_True in Hrep1 by done.
  unfold set. set (c1 := set_entry now ns key v opts c) in *.
  assert (Hgk1 : Map.get k (store c1) = Some e).
  { rewrite Hst, get_set, decide_False by congruence. done. }
  assert (Hk1 : key_of (heap c1) p0 = k) by (rewrite Hkey; [done|by left]).
  assert (Hkp : key_of (heap c1) p = makeFullKey ns key).
  { rewrite <-Hnode. apply (rep_entry _ _ Hrep1 _ _ Hg1). }
  assert (Hsz1 : size e1 = byteLength v).
  { rewrite (rep_size _ _ Hrep1 _ _ Hg1). unfold byteLength. by rewrite Hval. }
  destruct (evictUntilWithinBudget_rep _ _ Hrep1) as (l1 & l2 & _ & Hev).
  set (c' := evictUntilWithinBudget c1) in *.
  destruct Hev as [Hsplit Hrep' _ _ Hstore _ _ Hover].
  apply Hstore. split; [done|]. rewrite Hn0.
  destruct (decide (p0 ∈ l1)) as [|Hnot]; [done|exfalso].
  destruct l1 as [|a [|b l1]]; simpl in Hsplit.
  - specialize (Hover p _ e1 (eq_sym Hsplit)).
    rewrite Hkp in Hover. specialize (Hover Hg1).
    destruct (store_nil_rep _ Hrep') as [Hs' _].
    rewrite (rep_used _ _ Hrep'), Hs' in Hover. simpl in Hover. lia.
  - injection Hsplit as <- Hl2.
    specialize (Hover p0 _ e (eq_sym Hl2)).
    rewrite Hk1 in Hover. specialize (Hover Hgk1).
    assert (Hu : usedBytes c' = size e1).
    { rewrite (rep_used _ _ Hrep').
      pose proof (lru_keys_perm c' (ex_intro _ _ Hrep')) as Hperm.
      rewrite (lru_keys_rep _ _ Hrep') in Hperm. simpl in Hperm.
      apply Permutation_singleton_l in Hperm.
      destruct (store c') as [|[kk ee] [|? ?]] eqn:Es; try done.
      simpl in Hperm. injection Hperm as Hkk.
      assert (Hgc : Map.get kk [(kk, ee)] = Some ee).
      { simpl. by rewrite decide_True. }
      apply Hstore in Hgc as [Hgc1 Hin]. apply list_elem_of_singleton in Hin.
      destruct (rep_entry _ _ Hrep1 _ _ Hgc1) as [_ Hkey'].
      rewrite Hin, Hkp in Hkey'. rewrite <-Hkey', Hg1 in Hgc1.
      injection Hgc1 as ->. simpl. lia. }
    lia.
  - injection Hsplit as _ <- _. apply Hnot. right. left.
Qed.
End recency_facts.

(** X20: the most recently used entry outlives the next write.  When the
    key at the head of the recency list and the value written under
    another key fit the budget together, [set] does not evict that key;
    in particular a key that [get] has just found is still there, with its
    entry unchanged, after such a [set]. *)
Theorem most_recent_survives (c : InMemoryCache) now ns key v opts k e :
  reachable c →
  Map.get k (store c) = Some e →
  k ≠ makeFullKey ns key →
  size e + byteLength v ≤ maxBytes c →
  (hd_error (lru_keys c) = Some k →
   Map.get k (store (set now ns key v opts c)) = Some e)
  ∧ (∀ now0 ns0 key0,
       k = makeFullKey ns0 key0 → expired now0 e = false →
       (get now0 ns0 key0 c).1 = Some (value e)
       ∧ Map.get k (store (set now ns key v opts (get now0 ns0 key0 c).2))
         = Some e).
Proof.
  intros Hc%reachable_inv Hg Hne Hfit. split.
  - intros Hhd. by apply head_survives.
  - intros now0 ns0 key0 -> He.
    pose proof (get_inv now0 ns0 key0 c Hc) as Hc1.
    rewrite (get_hit _ _ _ _ e) in * by done. cbn [fst snd] in *.
    split; [done|]. apply head_survives; try done.
    by rewrite (promote_lru_keys _ (makeFullKey ns0 key0)).
Qed.

Lemma most_recent_survives_witness :
  let c := set 1 "n" "b" (VString "12345") (mkOptions None)
             (set 0 "n" "a" (VString "12345") (mkOptions None) (new (Some 10))) in
  let e := mkEntry (Buffer_from "12345") 0 0%nat 5 in
  (get 2 "n" "a" c).1 = Some (value e)
  ∧ Map.get "n:a" (store (set 3 "n" "c" (VString "1") (mkOptions None)
                            (get 2 "n" "a" c).2))
    = Some e.
Proof.
  intros c e.
  assert (Hc : reachable c).
  { do 2 apply (reachable_step _ (OpSet _ _ _ _ _)). apply reachable_new. }
  destruct (most_recent_survives c 3 "n" "c" (VString "1") (mkOptions None)
              "n:a" e Hc) as [_ H]; [done|done|by vm_compute|].
  by apply (H 2%N "n" "a").
Defined.

Section victim_facts.
Import Heap LRUList.
Implicit Types (c : InMemoryCache) (e : CacheEntry) (l : list ptr).

Lemma evict_skips_unfold fuel c :
  evict_skips (S fuel) c =
  if usedBytes c >? maxBytes c then
    match popBack (heap c) (lru c) with
    | (None, _) => 0%nat
    | (Some victim, (h, q)) =>
        let k := fullKey (deref h victim) in
        match Map.get k (store c) with
        | None =>
            S (evict_skips fuel
                 (mkCache (store c) h q (maxBytes c) (usedBytes c)))
        | Some entry =>
            evict_skips fuel
              (mkCache (Map.delete k (store c)) h q (maxBytes c)
                       (usedBytes c - size entry))
        end
    end
  else 0%nat.
Proof. done. Qed.

(** The node at the tail has its entry, whose removal is the iteration. *)
Lemma evict_skips_step fuel c l p :
  cache_rep c (l ++ [p]) → usedBytes c > maxBytes c →
  ∃ e, Map.get (key_of (heap c) p) (store c) = Some e ∧ lruNode e = p
       ∧ evict_skips (S fuel) c
         = evict_skips fuel (remove_entry (key_of (heap c) p) e c).
Proof.
  intros Hrep Hgt.
  destruct (rep_node _ _ Hrep p) as (e & Hg & He).
  { apply elem_of_app. right. apply list_elem_of_here. }
  exists e. split; [done|]. split; [done|].
  rewrite evict_skips_unfold.
  assert ((usedBytes c >? maxBytes c) = true) as -> by lia.
  rewrite (popBack_snoc _ _ _ _ (rep_dll _ _ Hrep)).
  unfold remove_entry. rewrite He.
  pose proof (detach_key p (heap c) (lru c) p) as Hk.
  destruct (detach p (heap c) (lru c)) as [h' q']; cbn [fst snd] in *.
  cbv zeta. unfold key_of in *. by rewrite Hk, Hg.
Qed.

Lemma evict_skips_zero fuel : ∀ c l, cache_rep c l → evict_skips fuel c = 0%nat.
Proof.
  induction fuel as [|fuel IH]; intros c l Hrep.
  { simpl. by destruct (_ >? _). }
  destruct (decide (usedBytes c ≤ maxBytes c)) as [Hle|Hgt].
  { rewrite evict_skips_unfold.
    by assert ((usedBytes c >? maxBytes c) = false) as -> by lia. }
  destruct l as [|p l _] using rev_ind.
  { rewrite evict_skips_unfold, (popBack_nil _ _ (rep_dll _ _ Hrep)).
    by destruct (_ >? _). }
  destruct (evict_skips_step fuel c l p Hrep) as (e & Hg & He & ->); [lia|].
  apply (IH _ l). rewrite <-(app_nil_r l).
  apply remove_entry_rep; [by rewrite He|done].
Qed.

Lemma popBack_victim c l p r :
  cache_rep c l → popBack (heap c) (lru c) = (Some p, r) →
  is_Some (Map.get (fullKey (deref r.1 p)) (store c)).
Proof.
  intros Hrep Hpop. unfold popBack in Hpop.
  destruct (tail (lru c)) as [p'|] eqn:Ht; [|done].
  injection Hpop as -> <-. rewrite detach_key.
  destruct (rep_dll _ _ Hrep) as (_ & _ & Htl & _). rewrite Ht in Htl.
  symmetry in Htl. apply last_Some_elem_of in Htl.
  destruct (rep_node _ _ Hrep p Htl) as (e & Hg & _). by exists e.
Qed.
End victim_facts.

(** X21: entries and nodes belong together.  In every reachable state the
    [size] of an entry is the length of its buffer, its node carries its
    key and stands on the recency list, and every node of the list is the
    node of the entry found under the key it carries.  So budget
    enforcement always finds the entry of the node it pops: in the state
    where [set] calls it, the node at the tail has its entry, and however
    many iterations the loop runs from there, none of them takes the branch
    for a missing entry; the same holds when it is run on a reachable
    state. *)
Theorem entries_and_nodes (c : InMemoryCache) :
  reachable c →
  (∀ k e, Map.get k (store c) = Some e →
     size e = Z.of_nat (length (value e))
     ∧ fullKey (Heap.deref (heap c) (lruNode e)) = k
     ∧ lruNode e ∈ LRUList.nodes (heap c) (lru c))
  ∧ (∀ p, p ∈ LRUList.nodes (heap c) (lru c) →
       ∃ e, Map.get (fullKey (Heap.deref (heap c) p)) (store c) = Some e
            ∧ lruNode e = p)
  ∧ (∀ now ns key v opts,
       let c1 := set_entry now ns key v opts c in
       (∀ p r, LRUList.popBack (heap c1) (lru c1) = (Some p, r) →
          is_Some (Map.get (fullKey (Heap.deref r.1 p)) (store c1)))
       ∧ ∀ fuel, evict_skips fuel c1 = 0%nat)
  ∧ (∀ fuel, evict_skips fuel c = 0%nat).
Proof.
  intros Hc%reachable_inv. pose proof Hc as [l Hrep].
  pose proof (rep_dll _ _ Hrep) as Hd. rewrite (dll_nodes _ _ _ Hd).
  split; [|split; [|split]].
  - intros k e Hg. split; [by apply (rep_size _ _ Hrep k)|].
    destruct (rep_entry _ _ Hrep _ _ Hg) as [Hin Hk]. by split.
  - intros p Hp. apply (rep_node _ _ Hrep p Hp).
  - intros now ns key v opts c1.
    destruct (set_entry_inv now ns key v opts c Hc) as [l1 Hrep1].
    fold c1 in Hrep1. split.
    + intros p r. by apply (popBack_victim _ l1).
    + intros fuel. by apply (evict_skips_zero _ _ l1).
  - intros fuel. by apply (evict_skips_zero _ _ l).
Qed.

Lemma entries_and_nodes_witness :
  let c := step (step (new (Some 10))
                   (OpSet 5 "n" "a" (VString "12345") (mkOptions (Some 20))))
                   (OpSet 6 "n" "b" (VString "12345") (mkOptions None)) in
  let c1 := set_entry 7 "n" "c" (VString "123456") (mkOptions None) c in
  usedBytes c1 > maxBytes c1
  ∧ (LRUList.popBack (heap c1) (lru c1)).1 = Some 0%nat
  ∧ evict_skips 5 c1 = 0%nat.
Proof.
  intros c c1.
  assert (Hc : reachable c) by repeat constructor.
  destruct (entries_and_nodes c Hc) as (_ & _ & H & _).
  split; [by vm_compute|]. split; [by vm_compute|].
  apply (H 7%N "n" "c" (VString "123456") (mkOptions None)).
Defined.

(** X22: the sweeper is invisible to readers.  A [has] or a [get] at a
    time not before the sweep answers on the swept state what it answers
    on the state that was not swept. *)
Theorem sweeper_is_transparent (c : InMemoryCache) (now t : N) (ns key : string) :
  reachable c → (now ≤ t)%N →
  (has t ns key (sweepExpired now c)).1 = (has t ns key c).1
  ∧ (get t ns key (sweepExpired now c)).1 = (get t ns key c).1.
Proof.
  intros [l Hrep]%reachable_inv Hle. rewrite sweepExpired_purge.
  destruct (purge_rep (λ _ e, expired now e) (store c) c l [] Hrep)
    as (_ & Hs & _); [done|].
  simpl in Hs. unfold has, get. rewrite Hs, get_purged by apply Hrep.
  destruct (Map.get _ (store c)) as [e|]; [|done].
  destruct (expired now e) eqn:He.
  - by rewrite (expired_mono now t).
  - destruct (expired t e); [done|]. split; [done|].
    by destruct (LRUList.moveToFront _ _ _), (LRUList.moveToFront _ _ _).
Qed.

Lemma sweeper_is_transparent_witness :
  let c := set 6 "n" "b" (VString "xy") (mkOptions (Some 30))
             (set 5 "n" "a" (VString "12345") (mkOptions (Some 20)) (new None)) in
  (has 27 "n" "b" (sweepExpired 26 c)).1 = (has 27 "n" "b" c).1
  ∧ (get 27 "n" "b" (sweepExpired 26 c)).1 = (get 27 "n" "b" c).1.
Proof.
  intros c. apply sweeper_is_transparent; [|done].
  do 2 apply (reachable_step _ (OpSet _ _ _ _ _)). apply reachable_new.
Defined.
